(** * GeoPlanet training data: a shallow embedding of
      [scripts/geodata/geoplanet/geoplanet_training_data.py]

    The development follows the class [GeoPlanetFormatter]:
    - [PyStr]: the string built-ins the script calls ([str.strip],
      [str.lower]);
    - [Tables]: the class-level lookup tables;
    - [Store]: the three relations read from the sqlite database and the
      first alias query of [__init__];
    - [Indexer]: the second alias query, [__init__] and [get_aliases];
    - [Walker]: [get_place_hierarchy];
    - [Aggregator] and [Generator]: the two halves of the body of
      [format_postal_codes];
    - [Batch]: the generator [format_postal_codes] as a whole and its
      consumer [build_training_data];
    - [Sample]: small databases and collaborators for the examples.
    The definitions come first, the properties after them.

    The collaborators the script imports (affix stripping, equivalence of
    toponyms, country names, address formatting, dropout) are parameters
    of the sections that use them.

    Python strings are modelled as [string] (sequences of bytes, UTF-8 for
    text beyond ASCII).  Every byte the script tests for (space, comma,
    hyphen, the ASCII letters) is below 128 and so never occurs inside a
    multi-byte UTF-8 sequence: stripping bytes and stripping code points
    agree.  The whitespace [str.strip()] removes without argument goes
    beyond ASCII; it is modelled by the UTF-8 sequences of its code
    points.  A raised [KeyError] is a value of type [error]; a Python [None]
    is Rocq's [None]. *)

From Stdlib Require Import ZArith Ascii String.
From stdpp Require Import gmap strings list fin_maps sorting.

Open Scope list_scope.
Open Scope Z_scope.

(** ** Python string built-ins *)
Module PyStr.

(** [c in chars], for the argument [chars] of [str.strip]. *)
Definition in_chars (chars : string) (c : ascii) : bool :=
  existsb (Ascii.eqb c) (list_ascii_of_string chars).

(** [s.lstrip(chars)]: drop leading characters that are in [chars]. *)
Fixpoint lstrip (chars : string) (s : string) : string :=
  match s with
  | EmptyString => EmptyString
  | String c s' => if in_chars chars c then lstrip chars s' else s
  end.

(** [s.rstrip(chars)]: drop trailing characters that are in [chars]. *)
Fixpoint rstrip (chars : string) (s : string) : string :=
  match s with
  | EmptyString => EmptyString
  | String c s' =>
      match rstrip chars s' with
      | EmptyString =>
          if in_chars chars c then EmptyString else String c EmptyString
      | r => String c r
      end
  end.

(** [s.strip(chars)]: CPython advances an index from the left, then one
    from the right down to the left index, and returns the slice. *)
Definition strip (chars : string) (s : string) : string :=
  rstrip chars (lstrip chars s).

(** A string given by the codes of its bytes. *)
Definition bytes (codes : list N) : string :=
  string_of_list_ascii (ascii_of_N <$> codes).

(** The characters [str.strip()] removes when called without argument,
    each as the bytes of its UTF-8 encoding.  They are the 29 characters
    a Python 3 [str] holds for whitespace: U+0009 to U+000D, U+001C to
    U+001F, U+0020, U+0085, U+00A0, U+1680, U+2000 to U+200A, U+2028,
    U+2029, U+202F, U+205F and U+3000. *)
Definition whitespace : list string :=
  bytes <$>
    [ [9]; [10]; [11]; [12]; [13]; [28]; [29]; [30]; [31]; [32];
      [194; 133]; [194; 160]; [225; 154; 128];
      [226; 128; 128]; [226; 128; 129]; [226; 128; 130]; [226; 128; 131];
      [226; 128; 132]; [226; 128; 133]; [226; 128; 134]; [226; 128; 135];
      [226; 128; 136]; [226; 128; 137]; [226; 128; 138];
      [226; 128; 168]; [226; 128; 169]; [226; 128; 175];
      [226; 129; 159]; [227; 128; 128] ]%N.

(** [s] without its prefix [pre], when it begins with [pre]. *)
Fixpoint drop_prefix (pre s : string) : option string :=
  match pre with
  | EmptyString => Some s
  | String c pre' =>
      match s with
      | EmptyString => None
      | String d s' => if Ascii.eqb c d then drop_prefix pre' s' else None
      end
  end.

(** [s] without the first of the sequences [seqs] it begins with. *)
Definition drop_first (seqs : list string) (s : string) : option string :=
  foldr (fun q found =>
           match drop_prefix q s with
           | Some rest => Some rest
           | None => found
           end) None seqs.

(** Drop leading sequences of [seqs], at most [turns] of them. *)
Fixpoint lstrip_seqs (turns : nat) (seqs : list string) (s : string)
    : string :=
  match turns with
  | O => s
  | S turns' =>
      match drop_first seqs s with
      | Some rest => lstrip_seqs turns' seqs rest
      | None => s
      end
  end.

(** Drop the sequences of [seqs] at both ends of [s].  A string has no
    more characters than bytes, so [String.length] turns are enough; the
    right end is stripped as the left end of the reversed string.  In
    well-formed UTF-8 a string ends with the bytes of a character only
    if that character is its last one. *)
Definition strip_seqs (seqs : list string) (s : string) : string :=
  let l := lstrip_seqs (String.length s) seqs s in
  String.rev
    (lstrip_seqs (String.length l) (String.rev <$> seqs) (String.rev l)).

(** [s.strip()]. *)
Definition strip_whitespace (s : string) : string :=
  strip_seqs whitespace s.

(** [c.lower()] on one byte: only the ASCII capitals change. *)
Definition lower_ascii (c : ascii) : ascii :=
  let n := N_of_ascii c in
  if ((65 <=? n) && (n <=? 90))%N then ascii_of_N (n + 32) else c.

(** [s.lower()]. *)
Fixpoint lower (s : string) : string :=
  match s with
  | EmptyString => EmptyString
  | String c s' => String (lower_ascii c) (lower s')
  end.

(** Truth value of a string: the empty string is falsy. *)
Definition truthy (s : string) : bool :=
  match s with EmptyString => false | String _ _ => true end.

(** First and last character of a string, when it has one. *)
Definition first_char (s : string) : option ascii :=
  match s with EmptyString => None | String c _ => Some c end.

Fixpoint last_char (s : string) : option ascii :=
  match s with
  | EmptyString => None
  | String c EmptyString => Some c
  | String _ s' => last_char s'
  end.

(** [s] begins (ends) with a character of [chars]. *)
Definition begins_with (chars s : string) : bool :=
  match first_char s with Some c => in_chars chars c | None => false end.

Definition ends_with (chars s : string) : bool :=
  match last_char s with Some c => in_chars chars c | None => false end.

End PyStr.

(** [GeoPlanetFormatter.cleanup_name]: [name.strip(' ,-')]. *)
Definition cleanup_name (name : string) : string :=
  PyStr.strip " ,-" name.

(** A name is clean when it neither begins nor ends with a space, a comma
    or a hyphen.  The empty string is clean. *)
Definition clean (s : string) : Prop :=
  PyStr.begins_with " ,-" s = false /\ PyStr.ends_with " ,-" s = false.

(** ** Exceptions *)

(** The only exception the script can raise by itself is [KeyError], from
    a subscript on one of three dictionaries. *)
Inductive error : Type :=
  | KeyError_places (place_id : Z)            (* self.places[place_id] *)
  | KeyError_language_codes (code : string)   (* self.language_codes[code] *)
  | KeyError_place_types (place_type : string). (* self.place_types[t] *)

#[global] Instance error_eq_dec : EqDecision error.
Proof. solve_decision. Defined.

(** Computations that may raise: [inl e] is a raised exception. *)
#[global] Instance raise_bind : MBind (sum error) :=
  fun A B k r => match r with inl e => inl e | inr a => k a end.
#[global] Instance raise_ret : MRet (sum error) := fun A a => inr a.

(** [d[k]] on a dictionary: the value, or [KeyError]. *)
Definition subscript `{Countable K} {V} (d : gmap K V) (k : K)
    (err : K -> error) : error + V :=
  match d !! k with Some v => inr v | None => inl (err k) end.

(** ** Class-level tables *)
Module Tables.

(** Modelled from the spec: the constants of [AddressFormatter], a class
    imported from [geodata.address_formatting.formatter] whose source is
    not part of the script.  They are the closed set of ten
    address-component categories of the specification's category table;
    the script only uses them as dictionary keys, so they are taken as ten
    distinct values. *)
Inductive category : Type :=
  | WORLD_REGION | COUNTRY | COUNTRY_REGION | STATE | STATE_DISTRICT
  | ISLAND | CITY | CITY_DISTRICT | SUBURB | POSTCODE.

#[global] Instance category_eq_dec : EqDecision category.
Proof. solve_decision. Defined.

Definition category_code (c : category) : nat :=
  match c with
  | WORLD_REGION => 0 | COUNTRY => 1 | COUNTRY_REGION => 2 | STATE => 3
  | STATE_DISTRICT => 4 | ISLAND => 5 | CITY => 6 | CITY_DISTRICT => 7
  | SUBURB => 8 | POSTCODE => 9
  end%nat.

Definition category_of_code (n : nat) : option category :=
  match n with
  | 0 => Some WORLD_REGION | 1 => Some COUNTRY | 2 => Some COUNTRY_REGION
  | 3 => Some STATE | 4 => Some STATE_DISTRICT | 5 => Some ISLAND
  | 6 => Some CITY | 7 => Some CITY_DISTRICT | 8 => Some SUBURB
  | 9 => Some POSTCODE | _ => None
  end%nat.

#[global] Program Instance category_countable : Countable category :=
  inj_countable category_code category_of_code _.
Next Obligation. by intros []. Qed.

(** [language_codes]: GeoPlanet language codes to ISO-639 alpha2. *)
Definition language_codes : gmap string string :=
  list_to_map
    [ ("ENG", "en"); ("JPN", "ja"); ("GER", "de"); ("SPA", "es");
      ("FRE", "fr"); ("UNK", "unk"); ("ITA", "it"); ("POR", "pt");
      ("POL", "pl"); ("ARA", "ar"); ("CZE", "cs"); ("SWE", "sv");
      ("CHI", "zh"); ("RUM", "ro"); ("FIN", "fi"); ("DUT", "nl");
      ("NOR", "nb"); ("DAN", "da"); ("HUN", "hu"); ("KOR", "kr") ].

(** [non_latin_script_languages] (never read by the script). *)
Definition non_latin_script_languages : gset string :=
  {[ "JPN"; "ARA"; "CHI"; "KOR" ]}.

Definition ALIAS_PREFERRED : string := "P".
Definition ALIAS_PREFERRED_FOREIGN : string := "Q".
Definition ALIAS_VARIANT : string := "V".
Definition ALIAS_ABBREVIATED : string := "A".
Definition ALIAS_COLLOQUIAL : string := "S".

(** [place_types]: GeoPlanet place types to address formatter types. *)
Definition place_types : gmap string category :=
  list_to_map
    [ ("Continent", WORLD_REGION); ("Country", COUNTRY);
      ("CountryRegion", COUNTRY_REGION); ("State", STATE);
      ("County", STATE_DISTRICT); ("Island", ISLAND); ("Town", CITY);
      ("LocalAdmin", CITY_DISTRICT); ("Suburb", SUBURB) ].

(** The tables are looked up, not unfolded, during proofs. *)
#[global] Arguments language_codes : simpl never.
#[global] Arguments place_types : simpl never.

End Tables.
Export Tables.

(** ** The database and the alias index *)
Module Store.

(** A row of [places] without its first column, as stored in
    [self.places]: [(country, name, language, place_type, parent_id)]. *)
Record place : Type := Place {
  place_country : string;
  place_name : string;
  place_language : string;
  place_type : string;
  place_parent_id : Z
}.

(** A row of [aliases] without its first column, as stored in
    [self.aliases]: [(name, name_type, language)].  The language column
    may be NULL (the script tests [if not alias_lang]); the other columns
    are taken as NOT NULL. *)
Record alias : Type := Alias {
  alias_name : string;
  alias_name_type : string;
  alias_language : option string
}.

(** A row of [postal_codes]:
    [(id, country, postal_code, language, place_type, parent_id)]. *)
Record postal_code_row : Type := PostalCode {
  pc_id : Z;
  pc_country : string;
  pc_postal_code : string;
  pc_language : string;
  pc_place_type : string;
  pc_parent_id : Z
}.

(** The three tables the script reads; a row of [places] or [aliases]
    is its id column paired with the rest. *)
Record database : Type := Database {
  places_table : list (Z * place);
  aliases_table : list (Z * alias);
  postal_codes_table : list postal_code_row
}.

#[global] Instance place_eq_dec : EqDecision place.
Proof. solve_decision. Defined.
#[global] Instance alias_eq_dec : EqDecision alias.
Proof. solve_decision. Defined.

(** [{row[0]: row[1:] for row in ...}]: a later row with the same id
    replaces an earlier one. *)
Definition load_places (rows : list (Z * place)) : gmap Z place :=
  foldl (fun m row => <[row.1 := row.2]> m) ∅ rows.

(** *** First query *)

(** The [on] condition of the left join:
    [a.id = p.id and p.place_type in ("State", "County")
     and a.language != p.language].  A comparison with NULL is not
    true. *)
Definition foreign_admin_name (a : Z * alias) (p : Z * place) : bool :=
  bool_decide (a.1 = p.1)
  && (String.eqb (place_type p.2) "State"
      || String.eqb (place_type p.2) "County")
  && match alias_language a.2 with
     | Some l => negb (String.eqb l (place_language p.2))
     | None => false
     end.

(** The [where] clause on the joined rows: name_type is neither "S" nor
    "V", and [p.id is NULL], that is, no row of [places] satisfied the
    join condition. *)
Definition first_query_where (places : list (Z * place))
    (a : Z * alias) : bool :=
  negb (String.eqb (alias_name_type a.2) "S")
  && negb (String.eqb (alias_name_type a.2) "V")
  && forallb (fun p => negb (foreign_admin_name a p)) places.

(** [case name_type when "P" then 1 ... else 6 end]. *)
Definition name_type_rank (name_type : string) : nat :=
  if String.eqb name_type "P" then 1
  else if String.eqb name_type "Q" then 2
  else if String.eqb name_type "V" then 3
  else if String.eqb name_type "A" then 4
  else if String.eqb name_type "S" then 5
  else 6.

(** Order of two values of the language column: NULL sorts first, text
    is compared byte by byte. *)
Definition language_le (l1 l2 : option string) : Prop :=
  match l1, l2 with
  | None, _ => True
  | Some _, None => False
  | Some s1, Some s2 => String.le s1 s2
  end.

#[global] Instance language_le_dec l1 l2 : Decision (language_le l1 l2).
Proof. destruct l1, l2; simpl; apply _. Defined.

(** [order by language, case name_type ... end] on two rows of the
    same id: [a] may come before [b]. *)
Definition language_rank_le (a b : alias) : Prop :=
  (alias_language a <> alias_language b /\
   language_le (alias_language a) (alias_language b)) \/
  (alias_language a = alias_language b /\
   (name_type_rank (alias_name_type a)
    <= name_type_rank (alias_name_type b))%nat).

(** [order by id, language, case name_type ... end]. *)
Definition order_by_le (a b : Z * alias) : Prop :=
  a.1 < b.1 \/ (a.1 = b.1 /\ language_rank_le a.2 b.2).

#[global] Instance language_rank_le_dec a b : Decision (language_rank_le a b).
Proof. unfold language_rank_le. apply _. Defined.

#[global] Instance order_by_le_dec a b : Decision (order_by_le a b).
Proof. unfold order_by_le. apply _. Defined.

(** The rows the first query returns, in the order it returns them.  SQL
    leaves the order of rows the [order by] does not separate to the
    engine; here it is the order [merge_sort] gives, and no property below
    depends on it. *)
Definition first_query (db : database) : list (Z * alias) :=
  merge_sort order_by_le
    (filter (fun a => first_query_where (places_table db) a = true)
            (aliases_table db)).

(** [self.aliases[row[0]].append(row[1:])] on the [defaultdict(list)]. *)
Definition append_alias (aliases : gmap Z (list alias)) (row : Z * alias)
    : gmap Z (list alias) :=
  <[row.1 := default [] (aliases !! row.1) ++ [row.2]]> aliases.

(** The first loop of [__init__]: rows of unknown places are skipped. *)
Definition first_loop (places : gmap Z place) (rows : list (Z * alias))
    : gmap Z (list alias) :=
  foldl (fun aliases row =>
           match places !! row.1 with
           | None => aliases
           | Some _ => append_alias aliases row
           end) ∅ rows.

(** [self.aliases] when the first loop is over. *)
Definition first_pass (db : database) : gmap Z (list alias) :=
  first_loop (load_places (places_table db)) (first_query db).

End Store.

(** ** [GeoPlanetFormatter.__init__] *)
Module Indexer.
Import Store.

(** A row of the second query, [a.*, p.name]: the alias columns, with a
    language that is not NULL since [a.language = p.language] held, and
    the name of the place. *)
Record variant_row : Type := VariantRow {
  vr_id : Z;
  vr_alias : string;
  vr_name_type : string;
  vr_language : string;
  vr_place_name : string
}.

(** [select a.*, p.name from aliases a join places p using(id)
     where a.name_type = "V" and a.language = p.language], read as
    nested loops over the two tables. *)
Definition second_query (db : database) : list variant_row :=
  a ← aliases_table db;
  p ← places_table db;
  match alias_language a.2 with
  | Some l =>
      if bool_decide (a.1 = p.1)
         && String.eqb (alias_name_type a.2) "V"
         && String.eqb l (place_language p.2)
      then [VariantRow a.1 (alias_name a.2) (alias_name_type a.2) l
                       (place_name p.2)]
      else []
  | None => []
  end.

(** The instance state after [__init__]. *)
Record formatter : Type := Formatter {
  places : gmap Z place;
  aliases : gmap Z (list alias)
}.

(** The entry the second loop appends for a row: [row[1:]]. *)
Definition variant_alias (row : variant_row) : alias :=
  Alias (vr_alias row) (vr_name_type row) (Some (vr_language row)).

(** [get_aliases]: [self.aliases.get(place_id, [])]. *)
Definition get_aliases (self : formatter) (place_id : Z) : list alias :=
  default [] (aliases self !! place_id).

Section Init.
(** [name_affixes.replace_prefixes] and [name_affixes.replace_suffixes],
    applied to a name and a language. *)
Variable replace_prefixes replace_suffixes : string -> string -> string.
(** [equivalent(s1, s2, toponym_abbreviations_gazetteer, language)]. *)
Variable equivalent : string -> string -> option string -> bool.

(** [replace_prefixes(replace_suffixes(name, language), language)],
    kept only when the result is not empty. *)
Definition sans_affixes (name language : string) : string :=
  let stripped :=
    replace_prefixes (replace_suffixes name language) language in
  if PyStr.truthy stripped then stripped else name.

(** Lines 121-136: the three arguments handed to [equivalent] for a
    row, [(place_name, alias, language)]. *)
Definition equivalence_arguments (row : variant_row)
    : error + (string * string * option string) :=
  language ← subscript language_codes (vr_language row)
                       KeyError_language_codes;
  if negb (String.eqb language "unk") then
    mret (sans_affixes (vr_place_name row) language,
          sans_affixes (vr_alias row) language,
          Some language)
  else
    mret (vr_place_name row, vr_alias row, None).

(** The row passes the test of line 138; a row on which line 126 raises
    does not. *)
Definition variant_kept (row : variant_row) : bool :=
  match equivalence_arguments row with
  | inr (place_name, alias, language) =>
      equivalent place_name alias language
  | inl _ => false
  end.

(** One turn of the second loop. *)
Definition second_loop_body (aliases : gmap Z (list alias))
    (row : variant_row) : error + gmap Z (list alias) :=
  args ← equivalence_arguments row;
  let '(place_name, alias, language) := args in
  if equivalent place_name alias language then
    mret (append_alias aliases (vr_id row, variant_alias row))
  else mret aliases.

Fixpoint second_loop (aliases : gmap Z (list alias))
    (rows : list variant_row) : error + gmap Z (list alias) :=
  match rows with
  | [] => mret aliases
  | row :: rows' =>
      aliases' ← second_loop_body aliases row;
      second_loop aliases' rows'
  end.

Definition init (db : database) : error + formatter :=
  let places := load_places (places_table db) in
  let aliases := first_pass db in
  aliases ← second_loop aliases (second_query db);
  mret (Formatter places aliases).
End Init.

End Indexer.

(** ** [GeoPlanetFormatter.get_place_hierarchy] *)
Module Walker.
Import Store.

(** The [while] loop, entered with [place_id] already set to a parent
    id.  The result is the list of the entries the loop appends to
    [all_places], front to back.  [fuel] bounds the number of turns:
    [None] means the bound was reached with the loop still running. *)
Fixpoint walk (fuel : nat) (places : gmap Z place)
    (original_place_id place_id : Z) : option (error + list (Z * place)) :=
  if bool_decide (place_id <> 1 /\ place_id <> original_place_id) then
    match fuel with
    | O => None
    | S fuel' =>
        match places !! place_id with
        | None => Some (inl (KeyError_places place_id))
        | Some place =>
            match walk fuel' places original_place_id
                       (place_parent_id place) with
            | Some (inr all_places) =>
                Some (inr ((place_id, place) :: all_places))
            | stopped => stopped
            end
        end
    end
  else Some (inr []).

Definition get_place_hierarchy (fuel : nat) (places : gmap Z place)
    (place_id : Z) : option (error + list (Z * place)) :=
  match places !! place_id with
  | None => Some (inl (KeyError_places place_id))
  | Some place =>
      match walk fuel places place_id (place_parent_id place) with
      | Some (inr all_places) =>
          Some (inr ((place_id, place) :: all_places))
      | stopped => stopped
      end
  end.

(** The ids a finished loop has gone through, whether it ended normally
    or on a missing place. *)
Inductive run (places : gmap Z place) (original_place_id : Z)
    : Z -> list Z -> Prop :=
  | run_stop place_id :
      place_id = 1 \/ place_id = original_place_id ->
      run places original_place_id place_id []
  | run_missing place_id :
      place_id <> 1 -> place_id <> original_place_id ->
      places !! place_id = None ->
      run places original_place_id place_id []
  | run_go place_id place ids :
      place_id <> 1 -> place_id <> original_place_id ->
      places !! place_id = Some place ->
      run places original_place_id (place_parent_id place) ids ->
      run places original_place_id place_id (place_id :: ids).

End Walker.

(** ** [format_postal_codes], first half: collecting the names *)
Module Aggregator.
Import Store Indexer Walker.

(** [d[k].add(name)] on a [defaultdict(set)]. *)
Definition add_name (d : gmap category (gset string)) (k : category)
    (name : string) : gmap category (gset string) :=
  <[k := default ∅ (d !! k) ∪ {[name]}]> d.

(** [language_places.setdefault(key, defaultdict(set))] followed by
    [language_places[key][place_type].add(name)].  The dictionary
    [containing_places] of the script is the very object stored under
    the key [None], so an addition to it is an addition under [None]. *)
Definition add_language_name
    (language_places : gmap (option string) (gmap category (gset string)))
    (key : option string) (place_type : category) (name : string)
    : gmap (option string) (gmap category (gset string)) :=
  <[key := add_name (default ∅ (language_places !! key)) place_type name]>
    language_places.

(** Lines 203-208: the key of the bucket an alias goes to. *)
Definition alias_bucket_key (lang : string) (a : alias)
    : error + option string :=
  let alias_lang :=
    match alias_language a with
    | Some l => if PyStr.truthy l then l else "UNK"
    | None => "UNK"
    end in
  if String.eqb alias_lang lang && negb (String.eqb lang "UNK") then
    mret None
  else
    alias_language ← subscript language_codes alias_lang
                               KeyError_language_codes;
    mret (Some alias_language).

(** Lines 202-215: the loop over the aliases of one place. *)
Fixpoint alias_loop (lang : string) (place_type : category)
    (language_places : gmap (option string) (gmap category (gset string)))
    (aliases : list alias)
    : error + gmap (option string) (gmap category (gset string)) :=
  match aliases with
  | [] => mret language_places
  | a :: aliases' =>
      key ← alias_bucket_key lang a;
      alias_loop lang place_type
        (add_language_name language_places key place_type
                           (cleanup_name (alias_name a)))
        aliases'
  end.

(** The variables the loop over the hierarchy assigns. *)
Record loop_state : Type := LoopState {
  st_country : string;
  st_language : string;
  st_have_default_language : bool;
  st_language_places : gmap (option string) (gmap category (gset string))
}.

(** Lines 186-215: one turn of the loop over [place_hierarchy]. *)
Definition place_loop_body (self : formatter) (postcode_language : string)
    (st : loop_state) (entry : Z * place) : error + loop_state :=
  let place_id := entry.1 in
  let country := PyStr.lower (place_country entry.2) in
  let lang := place_language entry.2 in
  first ←
    (if negb (st_have_default_language st)
        && negb (String.eqb lang postcode_language)
     then
       language ← subscript language_codes lang KeyError_language_codes;
       mret (language, true)
     else mret (st_language st, st_have_default_language st));
  let name := cleanup_name (place_name entry.2) in
  place_type ← subscript place_types (place_type entry.2)
                         KeyError_place_types;
  let language_places :=
    add_language_name (st_language_places st) None place_type name in
  language_places ← alias_loop lang place_type language_places
                               (get_aliases self place_id);
  mret (LoopState country first.1 first.2 language_places).

Fixpoint place_loop (self : formatter) (postcode_language : string)
    (st : loop_state) (place_hierarchy : list (Z * place))
    : error + loop_state :=
  match place_hierarchy with
  | [] => mret st
  | entry :: rest =>
      st' ← place_loop_body self postcode_language st entry;
      place_loop self postcode_language st' rest
  end.

(** What the second half of the body reads from the first. *)
Record aggregate : Type := Aggregate {
  agg_country : string;
  agg_original_language : string;
  agg_language_places : gmap (option string) (gmap category (gset string))
}.

(** Lines 170-215 for one row of [postal_codes]. *)
Definition collect (fuel : nat) (self : formatter) (row : postal_code_row)
    : option (error + aggregate) :=
  let country := PyStr.lower (pc_country row) in
  let postcode_language := pc_language row in
  match subscript language_codes postcode_language
                  KeyError_language_codes with
  | inl e => Some (inl e)
  | inr language =>
      match get_place_hierarchy fuel (places self) (pc_parent_id row) with
      | None => None
      | Some (inl e) => Some (inl e)
      | Some (inr place_hierarchy) =>
          let original_language := language in
          Some (st ← place_loop self postcode_language
                      (LoopState country language false {[None := ∅]})
                      place_hierarchy;
                mret (Aggregate (st_country st) original_language
                                (st_language_places st)))
      end
  end.

(** What holds of every bucket while the names are collected: a key
    other than [None] is a value of [language_codes], no bucket has a
    Postcode entry, and every name is clean. *)
Definition well_formed
    (language_places : gmap (option string) (gmap category (gset string)))
    : Prop :=
  forall key bucket, language_places !! key = Some bucket ->
    (forall l, key = Some l -> exists code, language_codes !! code = Some l)
    /\ bucket !! POSTCODE = None
    /\ (forall c names n,
          bucket !! c = Some names -> n ∈ names -> clean n).

End Aggregator.

(** ** [format_postal_codes], second half: generating the variants *)
Module Generator.
Import Store Indexer Aggregator.

(** A yielded triple [(language, country, formatted)]. *)
Definition record : Type := (option string * string * option string)%type.

(** [itertools.product] of the pools: the last pool advances fastest. *)
Fixpoint product {A} (pools : list (list A)) : list (list A) :=
  match pools with
  | [] => [[]]
  | pool :: pools' => x ← pool; t ← product pools'; [x :: t]
  end.

(** [components = {POSTCODE: postal_code}] followed by
    [components.update(zip(keys, values))]. *)
Definition make_components (postal_code : string) (keys : list category)
    (values : list string) : gmap category string :=
  foldl (fun components kv => <[kv.1 := kv.2]> components)
        {[POSTCODE := postal_code]} (zip keys values).

(** [language in (None, 'ENG')]. *)
Definition none_or_ENG (language : option string) : bool :=
  match language with None => true | Some l => String.eqb l "ENG" end.

Section Generate.
(** [country_names.localized_name(country, language)] and
    [country_names.alpha3_code(country)]; [None] is Python's. *)
Variable localized_name : string -> option string -> option string.
Variable alpha3_code : string -> option string.
(** [self.formatter.template_language_matters(country, language)]. *)
Variable template_language_matters : string -> option string -> bool.
(** [self.formatter.format_address(components, country,
     language=..., minimal_only=False, tag_components=...)]. *)
Variable format_address :
  gmap category string -> string -> option string -> bool -> option string.
(** [place_config.dropout_components(components, (), country=country,
     population=0)].  The product tuples of one bucket are pairwise
     different, so a function of the components can still choose
     differently for each of them. *)
Variable dropout_components :
  gmap category string -> string -> gmap category string.

(** Lines 221-226. *)
Definition add_country_names (country : string) (language : option string)
    (containing_places : gmap category (gset string))
    : gmap category (gset string) :=
  let containing_places :=
    match localized_name country language with
    | Some country_localized_name =>
        if PyStr.truthy country_localized_name
        then add_name containing_places COUNTRY country_localized_name
        else containing_places
    | None => containing_places
    end in
  match alpha3_code country with
  | Some country_alpha3_code =>
      if PyStr.truthy country_alpha3_code && none_or_ENG language
      then add_name containing_places COUNTRY country_alpha3_code
      else containing_places
  | None => containing_places
  end.

(** Lines 232-250: what one product tuple yields. *)
Definition tuple_variants (tag_components : bool)
    (language : option string) (country postal_code : string)
    (keys : list category) (values : list string) : list record :=
  let components := make_components postal_code keys values in
  let format_language :=
    if template_language_matters country language then language
    else None in
  let formatted :=
    format_address components country format_language tag_components in
  let component_keys : gset category := dom components in
  let components' := dropout_components components country in
  (language, country, formatted) ::
  (if bool_decide (1 < size components')%nat
      && bool_decide (dom components' <> component_keys)
   then [(language, country,
          format_address components' country format_language
                         tag_components)]
   else []).

(** Lines 228-250: the variants of one bucket whose country names
    have been added.  The order in which a set or a dictionary is
    iterated is left open by Python; here it is the order of
    [elements] and [map_to_list]. *)
Definition bucket_variants (tag_components : bool)
    (language : option string) (country postal_code : string)
    (containing_places : gmap category (gset string)) : list record :=
  let keys := (map_to_list containing_places).*1 in
  let all_values := elements <$> (map_to_list containing_places).*2 in
  values ← product all_values;
  tuple_variants tag_components language country postal_code keys values.

(** Lines 218-219: the language a bucket is processed under. *)
Definition bucket_language (original_language : string)
    (key : option string) : option string :=
  match key with None => Some original_language | Some _ => key end.

(** Lines 217-250. *)
Definition generate (tag_components : bool) (postal_code : string)
    (agg : aggregate) : list record :=
  item ← map_to_list (agg_language_places agg);
  let language := bucket_language (agg_original_language agg) item.1 in
  bucket_variants tag_components language (agg_country agg) postal_code
    (add_country_names (agg_country agg) language item.2).

(** The body of the loop over [postal_codes] for one row. *)
Definition format_postal_code (fuel : nat) (self : formatter)
    (tag_components : bool) (row : postal_code_row)
    : option (error + list record) :=
  match collect fuel self row with
  | None => None
  | Some (inl e) => Some (inl e)
  | Some (inr agg) =>
      Some (inr (generate tag_components (pc_postal_code row) agg))
  end.
End Generate.

End Generator.

(** ** The generator as a whole and [build_training_data] *)
Module Batch.
Import Store Indexer Aggregator Generator.

(** What running a generator to its end leaves behind: the values it
    yielded and, when it stopped on an exception, the exception. *)
Record stream (A : Type) : Type := Stream {
  yielded : list A;
  raised : option error
}.
Arguments Stream {A} _ _.
Arguments yielded {A} _.
Arguments raised {A} _.

(** A row handed to [writer.writerow]. *)
Inductive written_row : Type :=
  | Tagged (language : option string) (country formatted_address : string)
  | Plain (formatted_address : string).

(** [not formatted_address or not formatted_address.strip()]. *)
Definition blank (formatted_address : option string) : bool :=
  match formatted_address with
  | None => true
  | Some s =>
      negb (PyStr.truthy s)
      || negb (PyStr.truthy (PyStr.strip_whitespace s))
  end.

Section Run.
Variable localized_name : string -> option string -> option string.
Variable alpha3_code : string -> option string.
Variable template_language_matters : string -> option string -> bool.
Variable format_address :
  gmap category string -> string -> option string -> bool -> option string.
Variable dropout_components :
  gmap category string -> string -> gmap category string.
(** [tsv_string] of [geodata.csv_utils]. *)
Variable tsv_string : string -> option string.

(** [format_postal_codes]: the rows are processed in turn; there is
    no [try] around the body, so the first exception ends the
    generator.  Every exception of a row is raised before the row
    yields anything. *)
Fixpoint format_postal_codes (fuel : nat) (self : formatter)
    (tag_components : bool) (all_postal_codes : list postal_code_row)
    : option (stream record) :=
  match all_postal_codes with
  | [] => Some (Stream [] None)
  | row :: rows =>
      match format_postal_code localized_name alpha3_code
              template_language_matters format_address
              dropout_components fuel self tag_components row with
      | None => None
      | Some (inl e) => Some (Stream [] (Some e))
      | Some (inr records) =>
          match format_postal_codes fuel self tag_components rows with
          | None => None
          | Some s => Some (Stream (records ++ yielded s) (raised s))
          end
      end
  end.

(** Lines 263-275: what one yielded triple makes the writer write. *)
Definition write_record (tag_components : bool) (r : record)
    : list written_row :=
  let '(language, country, formatted_address) := r in
  if blank formatted_address then []
  else
    let formatted_address := formatted_address ≫= tsv_string in
    if blank formatted_address then []
    else
      match formatted_address with
      | Some text =>
          [if tag_components then Tagged language country text
           else Plain text]
      | None => []
      end.

(** [build_training_data]: the loop consumes the generator; an
    exception of the generator leaves the loop and the method. *)
Definition build_training_data (fuel : nat) (self : formatter)
    (tag_components : bool) (all_postal_codes : list postal_code_row)
    : option (stream written_row) :=
  match format_postal_codes fuel self tag_components all_postal_codes with
  | None => None
  | Some s =>
      Some (Stream (r ← yielded s; write_record tag_components r)
                   (raised s))
  end.
End Run.

End Batch.

(** The order the claim C3 expects of [get_aliases]: by rank of the
    name_type alone. *)
Definition by_priority (a b : Store.alias) : Prop :=
  (Store.name_type_rank (Store.alias_name_type a)
   <= Store.name_type_rank (Store.alias_name_type b))%nat.

(** ** Sample data *)
Module Sample.
Import Store Indexer Aggregator Generator Batch.

(** Collaborators for the examples.  Affixes: nothing is recognized.
    Equivalence: one name is a prefix of the other. *)
Definition no_affixes (name language : string) : string := name.
Definition prefix_equivalent (s1 s2 : string) (language : option string)
    : bool :=
  String.prefix s1 s2 || String.prefix s2 s1.

Definition localized_name (country : string) (language : option string)
    : option string :=
  if String.eqb country "us" then
    match language with
    | Some "en" => Some "United States"
    | Some "fr" => Some "Etats-Unis"
    | _ => None
    end
  else if String.eqb country "fr" then
    match language with
    | Some "en" => Some "France"
    | Some "fr" => Some "France"
    | _ => None
    end
  else None.

Definition alpha3_code (country : string) : option string :=
  if String.eqb country "us" then Some "USA"
  else if String.eqb country "fr" then Some "FRA"
  else None.

Definition language_never_matters (country : string)
    (language : option string) : bool := false.

(** A formatter that writes the components' values in key order. *)
Definition join_values (components : gmap category string)
    (country : string) (language : option string) (tag : bool)
    : option string :=
  Some (foldr (fun kv acc => String.append kv.2 (String.append " " acc))
              EmptyString (map_to_list components)).

Definition no_dropout (components : gmap category string)
    (country : string) : gmap category string := components.

(** A dropout that removes the state. *)
Definition drop_state (components : gmap category string)
    (country : string) : gmap category string := delete STATE components.

Definition tsv_identity (s : string) : option string := Some s.

(** The scenario of the specification: Springfield, Greene County,
    Missouri, United States, with one variant alias on the town. *)
Definition springfield : database :=
  Database
    [ (10, Place "US" "United States" "ENG" "Country" 1);
      (20, Place "US" "Missouri" "ENG" "State" 10);
      (30, Place "US" "Greene County" "ENG" "County" 20);
      (40, Place "US" "Springfield" "ENG" "Town" 30) ]
    [ (40, Alias "Springfield Township" "V" (Some "ENG")) ]
    [ PostalCode 1 "US" "65801" "ENG" "Zip" 40 ].

(** One town with an abbreviation in English, a preferred name in French
    and a variant in English. *)
Definition names : database :=
  Database
    [ (5, Place "US" "Springfield" "ENG" "Town" 1) ]
    [ (5, Alias "Springfield Township" "V" (Some "ENG"));
      (5, Alias "Champ-de-Printemps" "P" (Some "FRE"));
      (5, Alias "Spfd" "A" (Some "ENG")) ]
    [].

(** A store whose parent links run into the cycle 3 -> 4 -> 3. *)
Definition cyclic : gmap Z place :=
  load_places
    [ (2, Place "us" "Leaf" "ENG" "Town" 3);
      (3, Place "us" "Here" "ENG" "County" 4);
      (4, Place "us" "There" "ENG" "State" 3) ].

(** [__init__] with the collaborators of the examples. *)
Definition run_init (db : database) : error + formatter :=
  init no_affixes no_affixes prefix_equivalent db.

(** A postal code tagged English whose town and country are tagged
    French. *)
Definition paris : database :=
  Database
    [ (50, Place "FR" "France" "FRE" "Country" 1);
      (60, Place "FR" "Paris" "FRE" "Town" 50) ]
    []
    [ PostalCode 2 "FR" "75001" "ENG" "Zip" 60 ].

(** A town whose name consists of hyphens only. *)
Definition hyphens : database :=
  Database
    [ (70, Place "US" "--" "ENG" "Town" 1) ]
    []
    [ PostalCode 3 "US" "00000" "ENG" "Zip" 70 ].

(** The rows of [springfield], preceded by a postal code whose
    language is not in [language_codes]. *)
Definition springfield_after_unknown : list postal_code_row :=
  [ PostalCode 9 "US" "99999" "XXX" "Zip" 40;
    PostalCode 1 "US" "65801" "ENG" "Zip" 40 ].

(** Two villages tagged with the unknown language 'UNK', each with a
    Variant alias tagged 'UNK' too. *)
Definition unknown_language : database :=
  Database
    [ (7, Place "AT" "Anton" "UNK" "Town" 1);
      (8, Place "AT" "St. Jakob" "UNK" "Town" 1) ]
    [ (7, Alias "Anton am Arlberg" "V" (Some "UNK"));
      (8, Alias "Sankt Jakob" "V" (Some "UNK")) ]
    [].

(** Affix functions that replace every name by the same word. *)
Definition all_affixes (name language : string) : string := "x".

(** The instance [__init__] leaves on [unknown_language] when the affix
    functions are [all_affixes]. *)
Definition unknown_language_formatter : formatter :=
  match init all_affixes all_affixes prefix_equivalent unknown_language with
  | inr self => self
  | inl _ => Formatter ∅ ∅
  end.

(** The instance [__init__] leaves, and the aggregate of the first
    postal code of a database (empty ones if an exception is raised). *)
Definition formatter_of (db : database) : formatter :=
  match run_init db with
  | inr self => self
  | inl _ => Formatter ∅ ∅
  end.

Definition first_row (db : database) : postal_code_row :=
  default (PostalCode 0 EmptyString EmptyString EmptyString EmptyString 0)
          (head (postal_codes_table db)).

Definition aggregate_of (db : database) : Aggregator.aggregate :=
  match Aggregator.collect (length (places_table db)) (formatter_of db)
                           (first_row db) with
  | Some (inr agg) => agg
  | _ => Aggregator.Aggregate EmptyString EmptyString ∅
  end.

(** The candidates of a category in the bucket [None] of that
    aggregate, country names added. *)
Definition candidates_of (db : database) (c : category) : gset string :=
  let agg := aggregate_of db in
  default ∅
    (Generator.add_country_names localized_name alpha3_code
       (Aggregator.agg_country agg)
       (Generator.bucket_language
          (Aggregator.agg_original_language agg) None)
       (default ∅ (Aggregator.agg_language_places agg !! None)) !! c).

End Sample.

(** Equations between closed terms are settled by evaluation. *)
Ltac by_computation :=
  match goal with
  | |- ?lhs = ?rhs => exact (@eq_refl _ rhs <: lhs = rhs)
  end.

(** ** Notions used by the properties *)

(** Every character of [s] is one of [chars]. *)
Definition only_chars (chars s : string) : bool :=
  forallb (PyStr.in_chars chars) (list_ascii_of_string s).

(** [all_places] is the chain of parent links that starts at [place_id]
    and stops at the first id that is 1 or [original_place_id]: each
    entry is a place of the store under its own id, and the next entry
    is its parent. *)
Fixpoint parent_chain (places : gmap Z Store.place)
    (original_place_id place_id : Z) (all_places : list (Z * Store.place))
    : Prop :=
  match all_places with
  | [] => place_id = 1 \/ place_id = original_place_id
  | entry :: rest =>
      entry.1 = place_id /\
      place_id <> 1 /\ place_id <> original_place_id /\
      places !! place_id = Some entry.2 /\
      parent_chain places original_place_id
        (Store.place_parent_id entry.2) rest
  end.

(** The key a [KeyError] names is absent from the dictionary that was
    subscripted. *)
Definition missing_key (places : gmap Z Store.place) (e : error) : Prop :=
  match e with
  | KeyError_places place_id => places !! place_id = None
  | KeyError_language_codes code => language_codes !! code = None
  | KeyError_place_types place_type => place_types !! place_type = None
  end.

(** [name] is a candidate of the category [c] in the bucket [key]. *)
Definition candidate
    (language_places : gmap (option string) (gmap category (gset string)))
    (key : option string) (c : category) (name : string) : Prop :=
  exists bucket names,
    language_places !! key = Some bucket /\
    bucket !! c = Some names /\ name ∈ names.

(** What one entry of the hierarchy contributes (lines 193-215): under
    the category of its place type, its cleaned name to the bucket
    [None], and the cleaned name of each of its aliases to the bucket
    lines 203-208 choose for the alias. *)
Definition from_place (self : Indexer.formatter) (entry : Z * Store.place)
    (key : option string) (c : category) (name : string) : Prop :=
  place_types !! Store.place_type entry.2 = Some c /\
  ((key = None /\ name = cleanup_name (Store.place_name entry.2)) \/
   exists a,
     a ∈ Indexer.get_aliases self entry.1 /\
     Aggregator.alias_bucket_key (Store.place_language entry.2) a
       = inr key /\
     name = cleanup_name (Store.alias_name a)).

(** All sets of all buckets have a member, and the bucket [None] is
    there. *)
Definition well_stocked
    (language_places : gmap (option string) (gmap category (gset string)))
    : Prop :=
  is_Some (language_places !! None) /\
  forall key bucket c names,
    language_places !! key = Some bucket -> bucket !! c = Some names ->
    exists name, name ∈ names.

(** [components] fixes Postcode to the postal code, gives every category
    of the bucket one of its own candidates and sets nothing else. *)
Definition chooses (postal_code : string)
    (containing_places : gmap category (gset string))
    (components : gmap category string) : Prop :=
  components !! POSTCODE = Some postal_code /\
  (forall c names,
     containing_places !! c = Some names ->
     exists v, components !! c = Some v /\ v ∈ names) /\
  (forall c,
     c <> POSTCODE -> containing_places !! c = None ->
     components !! c = None).

(** A walk can climb from [a] to [b]: following one or more parent
    links leads from [a] to [b], and no id on the way, [a] and [b]
    included, is the root id 1 or [leaf].  A cycle of parent links that
    avoids both 1 and the leaf is an id that climbs to itself. *)
Inductive climbs (places : gmap Z Store.place) (leaf : Z) : Z -> Z -> Prop :=
  | climbs_link a place :
      a <> 1 -> a <> leaf -> places !! a = Some place ->
      Store.place_parent_id place <> 1 ->
      Store.place_parent_id place <> leaf ->
      climbs places leaf a (Store.place_parent_id place)
  | climbs_further a place b :
      a <> 1 -> a <> leaf -> places !! a = Some place ->
      climbs places leaf (Store.place_parent_id place) b ->
      climbs places leaf a b.

(** The strings written one after the other. *)
Definition join (parts : list string) : string :=
  foldr String.app EmptyString parts.

(** [s] is made of whitespace characters only (the empty string is). *)
Definition only_whitespace (s : string) : Prop :=
  exists parts,
    Forall (fun part => part ∈ PyStr.whitespace) parts /\ s = join parts.

(** The formatted address of a written row. *)
Definition row_text (w : Batch.written_row) : string :=
  match w with
  | Batch.Tagged _ _ formatted_address => formatted_address
  | Batch.Plain formatted_address => formatted_address
  end.

(** * Properties *)

(** ** Facts about the string built-ins *)
Section StripFacts.
Import PyStr.
Variable chars : string.

Lemma lstrip_begins s : begins_with chars (lstrip chars s) = false.
Proof.
  induction s as [|c s IH]; simpl; [done|].
  destruct (in_chars chars c) eqn:Hc; [exact IH|].
  unfold begins_with; simpl. exact Hc.
Qed.

Lemma lstrip_fixed s : begins_with chars s = false -> lstrip chars s = s.
Proof.
  destruct s as [|c s]; simpl; [done|].
  unfold begins_with; simpl. by intros ->.
Qed.

Lemma rstrip_ends s : ends_with chars (rstrip chars s) = false.
Proof.
  unfold ends_with.
  induction s as [|c s IH]; simpl; [done|].
  destruct (rstrip chars s) as [|d r] eqn:Hr.
  - destruct (in_chars chars c) eqn:Hc; simpl; [done|by rewrite Hc].
  - simpl in *. exact IH.
Qed.

Lemma rstrip_fixed s : ends_with chars s = false -> rstrip chars s = s.
Proof.
  unfold ends_with.
  induction s as [|c s IH]; simpl; [done|].
  destruct s as [|d s].
  - simpl. by intros ->.
  - intros H. rewrite (IH H). done.
Qed.

(** Stripping on the right leaves the first character alone. *)
Lemma rstrip_begins s :
  begins_with chars s = false -> begins_with chars (rstrip chars s) = false.
Proof.
  destruct s as [|c s]; simpl; [done|].
  unfold begins_with; simpl. intros Hc.
  destruct (rstrip chars s); simpl; by rewrite ?Hc.
Qed.

Lemma strip_begins s : begins_with chars (strip chars s) = false.
Proof. apply rstrip_begins, lstrip_begins. Qed.

Lemma strip_ends s : ends_with chars (strip chars s) = false.
Proof. apply rstrip_ends. Qed.

Lemma strip_idempotent s : strip chars (strip chars s) = strip chars s.
Proof.
  unfold strip at 1.
  rewrite (lstrip_fixed _ (strip_begins s)).
  apply rstrip_fixed, strip_ends.
Qed.
End StripFacts.

Lemma cleanup_name_clean s : clean (cleanup_name s).
Proof. split; [apply strip_begins | apply strip_ends]. Qed.

(** C10. [cleanup_name] is idempotent, and what it returns neither begins
    nor ends with a space, a comma or a hyphen. *)
Theorem cleanup_name_idempotent_clean :
  forall s : string,
    cleanup_name (cleanup_name s) = cleanup_name s /\
    PyStr.begins_with " ,-" (cleanup_name s) = false /\
    PyStr.ends_with " ,-" (cleanup_name s) = false.
Proof.
  intros s. split; [apply strip_idempotent | apply cleanup_name_clean].
Qed.

Section WalkerFacts.
Import Store Walker.
Variable places : gmap Z place.
Variable original : Z.

Lemma walk_more_fuel fuel fuel' place_id r :
  walk fuel places original place_id = Some r ->
  (fuel <= fuel')%nat ->
  walk fuel' places original place_id = Some r.
Proof.
  revert fuel' place_id r.
  induction fuel as [|fuel IH]; intros fuel' place_id r; simpl.
  - case_bool_decide; [done|]. intros Hr _.
    destruct fuel'; simpl; by rewrite bool_decide_eq_false_2.
  - case_bool_decide as Hc; intros Hr Hle.
    + destruct fuel' as [|fuel']; [lia|]. simpl.
      rewrite bool_decide_eq_true_2 by done.
      destruct (places !! place_id) as [place|]; [|done].
      destruct (walk fuel places original (place_parent_id place))
        as [r'|] eqn:Hw; [|done].
      rewrite (IH fuel' _ r' Hw) by lia. done.
    + destruct fuel'; simpl; by rewrite bool_decide_eq_false_2.
Qed.

Lemma walk_run fuel place_id r :
  walk fuel places original place_id = Some r ->
  exists ids,
    run places original place_id ids /\
    (length ids <= fuel)%nat /\
    (forall all_places, r = inr all_places -> ids = all_places.*1) /\
    (forall e, r = inl e -> length ids < fuel)%nat.
Proof.
  revert place_id r.
  induction fuel as [|fuel IH]; intros place_id r; simpl.
  - case_bool_decide as Hc; [done|]. intros [= <-].
    exists []. split_and!; [|done| |done].
    + apply run_stop.
      destruct (decide (place_id = 1)); [by left|].
      destruct (decide (place_id = original)); [by right|].
      destruct Hc; done.
    + by intros ? [= <-].
  - case_bool_decide as Hc.
    + destruct Hc as [H1 Ho].
      destruct (places !! place_id) as [place|] eqn:Hp.
      * destruct (walk fuel places original (place_parent_id place))
          as [r'|] eqn:Hw; [|done].
        destruct (IH _ _ Hw) as (ids & Hrun & Hlen & Hok & Herr).
        intros Hr. exists (place_id :: ids). split_and!.
        -- by eapply run_go.
        -- simpl. lia.
        -- intros all_places ->. destruct r' as [e|l]; simplify_eq.
           simpl. f_equal. by apply Hok.
        -- intros e ->. destruct r' as [e'|l]; simplify_eq.
           simpl. specialize (Herr _ eq_refl). lia.
      * intros [= <-]. exists []. split_and!.
        -- by apply run_missing.
        -- simpl. lia.
        -- done.
        -- intros; simpl; lia.
    + intros [= <-]. exists []. split_and!; [|simpl; lia| |done].
      * apply run_stop.
        destruct (decide (place_id = 1)); [by left|].
        destruct (decide (place_id = original)); [by right|].
        destruct Hc; done.
      * by intros ? [= <-].
Qed.

Lemma run_walk place_id ids :
  run places original place_id ids ->
  exists r, walk (S (length ids)) places original place_id = Some r.
Proof.
  induction 1 as [pid Hs|pid H1 Ho Hp|pid place ids H1 Ho Hp Hrun [r IH]].
  - exists (inr []). simpl. rewrite bool_decide_eq_false_2; [done|].
    intros [??]; destruct Hs; done.
  - eexists. simpl. rewrite bool_decide_eq_true_2 by done.
    by rewrite Hp.
  - change (length (pid :: ids)) with (S (length ids)).
    remember (S (length ids)) as n.
    simpl. rewrite bool_decide_eq_true_2 by done.
    rewrite Hp, IH. destruct r; eauto.
Qed.

Lemma run_deterministic place_id ids1 ids2 :
  run places original place_id ids1 ->
  run places original place_id ids2 -> ids1 = ids2.
Proof.
  intros H1. revert ids2.
  induction H1 as [pid Hs|pid ? ? Hp|pid place ids ? ? Hp Hrun IH];
    intros ids2 H2; inversion H2; simplify_eq; try done;
    try (exfalso; intuition congruence).
  f_equal. by apply IH.
Qed.

Lemma run_suffix place_id l1 x l2 :
  run places original place_id (l1 ++ x :: l2) ->
  run places original x (x :: l2).
Proof.
  revert place_id.
  induction l1 as [|y l1 IH]; intros place_id Hrun; simpl in *.
  - inversion Hrun; simplify_eq. by eapply run_go.
  - inversion Hrun; simplify_eq. eauto.
Qed.

Lemma run_NoDup place_id ids :
  run places original place_id ids -> NoDup ids.
Proof.
  induction 1 as [| |pid place ids H1 Ho Hp Hrun IH];
    [constructor..|].
  constructor; [|done].
  intros Hin. apply list_elem_of_split in Hin as (l1 & l2 & ->).
  pose proof (run_suffix _ _ _ _ Hrun) as Hsuf.
  assert (Hfull : run places original pid (pid :: l1 ++ pid :: l2))
    by (by eapply run_go).
  pose proof (run_deterministic _ _ _ Hsuf Hfull) as Heq.
  apply (f_equal length) in Heq. simpl in Heq.
  rewrite length_app in Heq. simpl in Heq. lia.
Qed.

Lemma run_visits place_id ids x :
  run places original place_id ids -> x ∈ ids ->
  x <> original /\ is_Some (places !! x).
Proof.
  induction 1 as [| |pid place ids H1 Ho Hp Hrun IH]; [by inversion 1..|].
  intros [->|Hin]%elem_of_cons; [eauto|by apply IH].
Qed.
End WalkerFacts.

Section HierarchyFacts.
Import Store Walker.
Variable places : gmap Z place.

Lemma distinct_ids_bound (ids : list Z) :
  NoDup ids -> (forall x, x ∈ ids -> is_Some (places !! x)) ->
  (length ids <= size places)%nat.
Proof.
  intros Hnd Hin.
  rewrite <- (size_dom (D := gset Z) places).
  rewrite <- (size_list_to_set (C := gset Z) ids Hnd).
  apply subseteq_size. intros x Hx.
  apply elem_of_list_to_set in Hx. apply elem_of_dom. auto.
Qed.

(** A loop that finishes took fewer turns than there are places. *)
Lemma walk_within_store fuel leaf place r :
  places !! leaf = Some place ->
  walk fuel places leaf (place_parent_id place) = Some r ->
  walk (size places) places leaf (place_parent_id place) = Some r.
Proof.
  intros Hleaf Hw.
  destruct (walk_run _ _ _ _ _ Hw) as (ids & Hrun & _ & _ & _).
  assert (Hlen : (S (length ids) <= size places)%nat).
  { change (S (length ids)) with (length (leaf :: ids)).
    apply distinct_ids_bound.
    - constructor; [|by eapply run_NoDup].
      intros Hin. by destruct (run_visits _ _ _ _ _ Hrun Hin).
    - intros x [->|Hin]%elem_of_cons; [eauto|].
      by destruct (run_visits _ _ _ _ _ Hrun Hin). }
  destruct (run_walk _ _ _ _ Hrun) as [r' Hr'].
  pose proof (walk_more_fuel _ _ _ _ _ _ Hr' Hlen) as Hsize.
  pose proof (walk_more_fuel _ _ _ (Nat.max fuel (size places)) _ _ Hw
                (Nat.le_max_l _ _)) as Ha.
  pose proof (walk_more_fuel _ _ _ (Nat.max fuel (size places)) _ _ Hsize
                (Nat.le_max_r _ _)) as Hb.
  congruence.
Qed.

Lemma get_place_hierarchy_more_fuel fuel fuel' leaf r :
  get_place_hierarchy fuel places leaf = Some r ->
  (fuel <= fuel')%nat ->
  get_place_hierarchy fuel' places leaf = Some r.
Proof.
  unfold get_place_hierarchy.
  destruct (places !! leaf) as [place|]; [|done].
  destruct (walk fuel places leaf (place_parent_id place)) as [r'|] eqn:Hw;
    [|done].
  intros Hr Hle. by rewrite (walk_more_fuel _ _ _ _ _ _ Hw Hle).
Qed.

Lemma get_place_hierarchy_within_store fuel leaf r :
  get_place_hierarchy fuel places leaf = Some r ->
  get_place_hierarchy (size places) places leaf = Some r.
Proof.
  unfold get_place_hierarchy.
  destruct (places !! leaf) as [place|] eqn:Hleaf; [|done].
  destruct (walk fuel places leaf (place_parent_id place)) as [r'|] eqn:Hw;
    [|done].
  intros Hr. by rewrite (walk_within_store _ _ _ _ Hleaf Hw).
Qed.

(** Either the walk never returns, or it returns within [size places]
    turns of the loop. *)
Lemma get_place_hierarchy_decided leaf :
  (forall fuel, get_place_hierarchy fuel places leaf = None) \/
  (exists r, forall fuel, (size places <= fuel)%nat ->
     get_place_hierarchy fuel places leaf = Some r).
Proof.
  destruct (get_place_hierarchy (size places) places leaf) as [r|] eqn:Hs.
  - right. exists r. intros fuel Hle.
    by apply (get_place_hierarchy_more_fuel _ _ _ _ Hs).
  - left. intros fuel.
    destruct (get_place_hierarchy fuel places leaf) as [r|] eqn:Hf; [|done].
    apply get_place_hierarchy_within_store in Hf. congruence.
Qed.

Lemma get_place_hierarchy_NoDup fuel leaf all_places :
  get_place_hierarchy fuel places leaf = Some (inr all_places) ->
  NoDup all_places.*1 /\ (length all_places <= size places)%nat.
Proof.
  unfold get_place_hierarchy.
  destruct (places !! leaf) as [place|] eqn:Hleaf; [|done].
  destruct (walk fuel places leaf (place_parent_id place)) as [[e|l]|] eqn:Hw;
    [done| |done].
  intros [= <-].
  destruct (walk_run _ _ _ _ _ Hw) as (ids & Hrun & _ & Hok & _).
  rewrite (Hok _ eq_refl) in Hrun.
  assert (Hnd : NoDup (leaf :: l.*1)).
  { constructor; [|by eapply run_NoDup].
    intros Hin. by destruct (run_visits _ _ _ _ _ Hrun Hin). }
  split; [exact Hnd|].
  change (length ((leaf, place) :: l)) with (S (length l)).
  rewrite <- (length_fmap fst l).
  change (S (length l.*1)) with (length (leaf :: l.*1)).
  apply distinct_ids_bound; [done|].
  intros x [->|Hin]%elem_of_cons; [eauto|].
  by destruct (run_visits _ _ _ _ _ Hrun Hin).
Qed.

(** The walk returns exactly when the chain of parents reaches the root
    id 1, the starting id or an id missing from the store. *)
Lemma get_place_hierarchy_returns leaf place :
  places !! leaf = Some place ->
  (exists fuel r, get_place_hierarchy fuel places leaf = Some r) <->
  (exists ids, run places leaf (place_parent_id place) ids).
Proof.
  intros Hleaf. unfold get_place_hierarchy. rewrite Hleaf. split.
  - intros (fuel & r & Hr).
    destruct (walk fuel places leaf (place_parent_id place)) as [r'|] eqn:Hw;
      [|done].
    destruct (walk_run _ _ _ _ _ Hw) as (ids & Hrun & _). eauto.
  - intros (ids & Hrun).
    destruct (run_walk _ _ _ _ Hrun) as [r Hr].
    exists (S (length ids)). rewrite Hr. destruct r; eauto.
Qed.
End HierarchyFacts.

(** ** Facts about the alias index *)
Section StoreFacts.
Import Store Indexer.

Lemma append_alias_lookup (aliases : gmap Z (list alias)) row id :
  default [] (append_alias aliases row !! id) =
  default [] (aliases !! id) ++ (if decide (row.1 = id) then [row.2] else []).
Proof.
  unfold append_alias. destruct (decide (row.1 = id)) as [->|Hne].
  - by rewrite lookup_insert_eq.
  - rewrite lookup_insert_ne by done. by rewrite app_nil_r.
Qed.

(** The list the first loop builds for an id: the rows of that id whose
    place is known, in the order of the query. *)
Lemma first_loop_lookup (places : gmap Z place) rows id :
  default [] (first_loop places rows !! id) =
  (filter (fun row : Z * alias =>
             row.1 = id /\ is_Some (places !! row.1)) rows).*2.
Proof.
  unfold first_loop.
  assert (forall acc : gmap Z (list alias),
    default [] (foldl (fun aliases row =>
                  match places !! row.1 with
                  | None => aliases
                  | Some _ => append_alias aliases row
                  end) acc rows !! id) =
    default [] (acc !! id) ++
    (filter (fun row : Z * alias =>
               row.1 = id /\ is_Some (places !! row.1)) rows).*2) as Hacc.
  { induction rows as [|row rows IH]; intros acc; simpl.
    - by rewrite app_nil_r.
    - rewrite IH, filter_cons.
      destruct (places !! row.1) as [p|] eqn:Hp.
      + rewrite append_alias_lookup.
        destruct (decide (row.1 = id)) as [Heq|Hne].
        * rewrite decide_True by eauto. simpl. by rewrite <- app_assoc.
        * rewrite decide_False by (intros [??]; done).
          by rewrite app_nil_r.
      + rewrite decide_False; [done|].
        intros [_ Hs]. by apply is_Some_None in Hs. }
  rewrite Hacc. by rewrite lookup_empty.
Qed.

Lemma first_query_where_spec (places : list (Z * place)) (a : Z * alias) :
  first_query_where places a = true <->
  alias_name_type a.2 <> "S" /\ alias_name_type a.2 <> "V" /\
  (forall p l, p ∈ places -> p.1 = a.1 ->
     place_type p.2 = "State" \/ place_type p.2 = "County" ->
     alias_language a.2 = Some l -> l = place_language p.2).
Proof.
  unfold first_query_where.
  rewrite !andb_true_iff, !negb_true_iff, !String.eqb_neq.
  rewrite forallb_forall.
  split; [intros [[HS HV] Hp]|intros (HS & HV & Hp)];
    (split_and!; [done..|]).
  - intros p l Hin Hid Hty Hl.
    apply list_elem_of_In, Hp in Hin.
    apply negb_true_iff in Hin. unfold foreign_admin_name in Hin.
    rewrite Hl in Hin.
    rewrite bool_decide_eq_true_2 in Hin by done.
    assert (String.eqb (place_type p.2) "State"
            || String.eqb (place_type p.2) "County" = true) as Hty'.
    { apply orb_true_iff. rewrite !String.eqb_eq. done. }
    rewrite Hty' in Hin. simpl in Hin.
    apply negb_false_iff, String.eqb_eq in Hin. done.
  - intros p Hin%list_elem_of_In. apply negb_true_iff.
    unfold foreign_admin_name.
    destruct (bool_decide (a.1 = p.1)) eqn:Hid; [|done].
    apply bool_decide_eq_true in Hid.
    destruct (String.eqb (place_type p.2) "State"
              || String.eqb (place_type p.2) "County") eqn:Hty; [|done].
    apply orb_true_iff in Hty. rewrite !String.eqb_eq in Hty.
    destruct (alias_language a.2) as [l|] eqn:Hl; [|done]. simpl.
    apply negb_false_iff, String.eqb_eq. by eapply Hp.
Qed.

(** Membership in the index after the first loop. *)
Lemma first_pass_elem_of (db : database) id (a : alias) :
  a ∈ default [] (first_pass db !! id) <->
  (id, a) ∈ aliases_table db /\
  first_query_where (places_table db) (id, a) = true /\
  is_Some (load_places (places_table db) !! id).
Proof.
  unfold first_pass. rewrite first_loop_lookup.
  rewrite list_elem_of_fmap. split.
  - intros ([id' a'] & -> & Hin). simpl.
    apply list_elem_of_filter in Hin as [[Hid Hsome] Hin]. simpl in *.
    subst id'. unfold first_query in Hin.
    rewrite merge_sort_Permutation in Hin.
    apply list_elem_of_filter in Hin as [Hw Hin]. done.
  - intros (Hin & Hw & Hsome). exists (id, a). split; [done|].
    apply list_elem_of_filter. split; [done|].
    unfold first_query. rewrite merge_sort_Permutation.
    apply list_elem_of_filter. done.
Qed.
End StoreFacts.

Section OrderFacts.
Import Store Indexer.

Lemma language_le_total l1 l2 : language_le l1 l2 \/ language_le l2 l1.
Proof.
  destruct l1 as [s1|], l2 as [s2|]; simpl; auto.
  apply (total String.le).
Qed.

Lemma language_le_trans l1 l2 l3 :
  language_le l1 l2 -> language_le l2 l3 -> language_le l1 l3.
Proof.
  destruct l1 as [s1|], l2 as [s2|], l3 as [s3|]; simpl; try done.
  apply (transitivity (R := String.le)).
Qed.

Lemma language_le_antisym l1 l2 :
  language_le l1 l2 -> language_le l2 l1 -> l1 = l2.
Proof.
  destruct l1 as [s1|], l2 as [s2|]; simpl; try done.
  intros H1 H2. f_equal. by apply (anti_symm String.le).
Qed.

#[local] Instance language_rank_le_trans : Transitive language_rank_le.
Proof.
  intros x y z [[Hxy Lxy]|[Hxy Rxy]] [[Hyz Lyz]|[Hyz Ryz]].
  - left. split; [|by eapply language_le_trans].
    intros Hxz. rewrite <- Hxz in Lyz.
    by apply Hxy, language_le_antisym.
  - left. rewrite <- Hyz. done.
  - left. rewrite Hxy. done.
  - right. split; [congruence|lia].
Qed.

#[local] Instance language_rank_le_total : Total language_rank_le.
Proof.
  intros x y. unfold language_rank_le.
  destruct (decide (alias_language x = alias_language y)) as [Heq|Hne].
  - destruct (Nat.le_ge_cases (name_type_rank (alias_name_type x))
                (name_type_rank (alias_name_type y))); auto.
  - destruct (language_le_total (alias_language x) (alias_language y));
      [left|right]; left; split; done.
Qed.

#[local] Instance order_by_le_trans : Transitive order_by_le.
Proof.
  intros x y z [Hxy|[Hxy Lxy]] [Hyz|[Hyz Lyz]]; unfold order_by_le.
  - left; lia.
  - left; lia.
  - left; lia.
  - right. split; [lia|]. by etrans.
Qed.

#[local] Instance order_by_le_total : Total order_by_le.
Proof.
  intros x y. unfold order_by_le.
  destruct (Z.lt_trichotomy x.1 y.1) as [?|[Heq|?]]; [auto| |auto].
  destruct (total language_rank_le x.2 y.2); auto.
Qed.

(** The rows of the first query come sorted by its [order by]. *)
Lemma first_query_sorted db : StronglySorted order_by_le (first_query db).
Proof. apply StronglySorted_merge_sort; apply _. Qed.

(** Restricted to one id, they are sorted by language, then by rank. *)
Lemma sorted_rows_of_id (places : gmap Z place)
    (rows : list (Z * alias)) id :
  StronglySorted order_by_le rows ->
  StronglySorted language_rank_le
    (filter (fun row : Z * alias =>
               row.1 = id /\ is_Some (places !! row.1)) rows).*2.
Proof.
  induction 1 as [|row rows Hs IH Hall]; simpl; [constructor|].
  rewrite filter_cons. case_decide as Hrow; [|done].
  destruct Hrow as [Hid _]. simpl. constructor; [done|].
  apply Forall_fmap, Forall_forall. intros row' Hin.
  apply list_elem_of_filter in Hin as [[Hid' _] Hin]. simpl.
  rewrite Forall_forall in Hall.
  destruct (Hall _ Hin) as [Hlt|[_ Hle]]; [lia|done].
Qed.

Lemma first_pass_sorted db id :
  StronglySorted language_rank_le (default [] (first_pass db !! id)).
Proof.
  unfold first_pass. rewrite first_loop_lookup.
  apply sorted_rows_of_id, first_query_sorted.
Qed.

Lemma load_places_is_Some (rows : list (Z * place)) id :
  is_Some (load_places rows !! id) <-> exists p, (id, p) ∈ rows.
Proof.
  unfold load_places.
  assert (forall acc : gmap Z place,
    is_Some (foldl (fun m row => <[row.1 := row.2]> m) acc rows !! id) <->
    is_Some (acc !! id) \/ exists p, (id, p) ∈ rows) as Hacc.
  { induction rows as [|[id' p'] rows IH]; intros acc; simpl.
    - split; [auto|]. intros [?|[p Hp]]; [done|]. by inversion Hp.
    - rewrite IH. simpl. split.
      + intros [Hs|[p Hp]].
        * destruct (decide (id' = id)) as [->|Hne].
          -- right. exists p'. left.
          -- rewrite lookup_insert_ne in Hs by done. auto.
        * right. exists p. by right.
      + intros [Hs|[p Hp]].
        * left. destruct (decide (id' = id)) as [->|Hne].
          -- rewrite lookup_insert_eq. eauto.
          -- by rewrite lookup_insert_ne.
        * apply elem_of_cons in Hp as [[= -> ->]|Hp].
          -- left. rewrite lookup_insert_eq. eauto.
          -- right. eauto. }
  rewrite Hacc, lookup_empty. split; [|auto].
  intros [Hs|?]; [|done]. by apply is_Some_None in Hs.
Qed.
End OrderFacts.

(** ** The second loop of [__init__] *)
Section SecondLoopFacts.
Import Store Indexer.
Variable replace_prefixes replace_suffixes : string -> string -> string.
Variable equivalent : string -> string -> option string -> bool.

Lemma second_loop_body_inr aliases row aliases' :
  second_loop_body replace_prefixes replace_suffixes equivalent aliases row
    = inr aliases' ->
  aliases' = if variant_kept replace_prefixes replace_suffixes equivalent row
             then append_alias aliases (vr_id row, Indexer.variant_alias row)
             else aliases.
Proof.
  unfold second_loop_body, variant_kept.
  destruct (equivalence_arguments _ _ row) as [e|[[pn a] l]]; simpl;
    [done|].
  destruct (equivalent pn a l); by intros [= <-].
Qed.

Lemma second_loop_lookup rows : forall aliases aliases' id,
  second_loop replace_prefixes replace_suffixes equivalent aliases rows
    = inr aliases' ->
  default [] (aliases' !! id) =
  default [] (aliases !! id) ++
  (Indexer.variant_alias <$>
     filter (fun row =>
               vr_id row = id /\
               variant_kept replace_prefixes replace_suffixes equivalent row
                 = true) rows).
Proof.
  induction rows as [|row rows IH]; intros aliases aliases' id.
  - intros [= <-]. rewrite filter_nil. by rewrite app_nil_r.
  - change (second_loop replace_prefixes replace_suffixes equivalent
              aliases (row :: rows))
      with (match second_loop_body replace_prefixes replace_suffixes
                    equivalent aliases row with
            | inl e => inl e
            | inr aliases1 =>
                second_loop replace_prefixes replace_suffixes equivalent
                  aliases1 rows
            end).
    destruct (second_loop_body _ _ _ aliases row) as [e|aliases1] eqn:Hb;
      [done|].
    intros Hrest. rewrite (IH _ _ id Hrest).
    apply second_loop_body_inr in Hb. subst aliases1.
    rewrite filter_cons.
    destruct (variant_kept replace_prefixes replace_suffixes equivalent row)
      eqn:Hk.
    + rewrite append_alias_lookup. cbn [fst snd].
      destruct (decide (vr_id row = id)) as [Hid|Hid].
      * rewrite decide_True by done. rewrite fmap_cons.
        by rewrite <- app_assoc.
      * rewrite decide_False by (intros [? _]; done). by rewrite app_nil_r.
    + rewrite decide_False by (intros [_ ?]; done). done.
Qed.

(** The rows of the second query are the Variant aliases whose language
    is the language of their place. *)
Lemma second_query_spec db row :
  row ∈ second_query db <->
  exists id a p,
    (id, a) ∈ aliases_table db /\ (id, p) ∈ places_table db /\
    alias_name_type a = "V" /\
    alias_language a = Some (place_language p) /\
    row = VariantRow id (alias_name a) "V" (place_language p) (place_name p).
Proof.
  unfold second_query. rewrite list_elem_of_bind. split.
  - intros ([id a] & Hrow & Ha). simpl in Hrow.
    apply list_elem_of_bind in Hrow as ([id' p] & Hrow & Hp).
    simpl in Hrow.
    destruct (alias_language a) as [l|] eqn:Hl; [|by inversion Hrow].
    destruct (bool_decide (id = id')) eqn:Hid; simpl in Hrow;
      [|by inversion Hrow].
    apply bool_decide_eq_true in Hid. subst id'.
    destruct (String.eqb (alias_name_type a) "V") eqn:Hv; simpl in Hrow;
      [|by inversion Hrow].
    destruct (String.eqb l (place_language p)) eqn:Hlp; simpl in Hrow;
      [|by inversion Hrow].
    apply String.eqb_eq in Hv, Hlp. subst l.
    apply list_elem_of_singleton in Hrow. exists id, a, p.
    rewrite Hv in Hrow. done.
  - intros (id & a & p & Ha & Hp & Hv & Hl & ->).
    exists (id, a). split; [|done]. simpl.
    apply list_elem_of_bind. exists (id, p). split; [|done]. simpl.
    rewrite Hl, Hv, bool_decide_eq_true_2 by done.
    rewrite !String.eqb_refl. simpl. left.
Qed.

Lemma second_query_variant db row :
  row ∈ second_query db -> vr_name_type row = "V".
Proof.
  intros (id & a & p & _ & _ & _ & _ & ->)%second_query_spec. done.
Qed.
End SecondLoopFacts.

(** C2, as the code has it.  An alias row is in the index after the first
    loop exactly when its name_type is neither Colloquial ("S") nor Variant
    ("V"), no State or County row of [places] with its id has another
    language than the alias, and its id is the id of some place.  So the
    first loop drops every Colloquial and every Variant alias, whatever the
    place_type and the languages, and drops the foreign-language aliases of
    a State or County whatever their name_type. *)
Theorem first_pass_keeps :
  forall (db : Store.database) (id : Z) (a : Store.alias),
    a ∈ default [] (Store.first_pass db !! id) <->
    (id, a) ∈ Store.aliases_table db /\
    Store.alias_name_type a <> "S" /\
    Store.alias_name_type a <> "V" /\
    (forall p l,
       (id, p) ∈ Store.places_table db ->
       Store.place_type p = "State" \/ Store.place_type p = "County" ->
       Store.alias_language a = Some l -> l = Store.place_language p) /\
    (exists p, (id, p) ∈ Store.places_table db).
Proof.
  intros db id a.
  rewrite first_pass_elem_of, first_query_where_spec, load_places_is_Some.
  simpl. split.
  - intros (Hin & (HS & HV & Hp) & Hex). split_and!; try done.
    intros p l Hpin. by apply (Hp (id, p)).
  - intros (Hin & HS & HV & Hp & Hex). split_and!; try done.
    intros [id' p] l Hpin Hid. simpl in *. subst id'. by apply Hp.
Qed.

(** C2, counterexample.  "Springfield Township" is a Variant alias of a
    Town, in the language of the town; the claim lets it through the first
    pass, the first query leaves it out. *)
Lemma first_pass_drops_town_variant :
  let a := Store.Alias "Springfield Township" "V" (Some "ENG") in
  (40, a) ∈ Store.aliases_table Sample.springfield /\
  Store.load_places (Store.places_table Sample.springfield) !! 40
    = Some (Store.Place "US" "Springfield" "ENG" "Town" 30) /\
  a ∉ default [] (Store.first_pass Sample.springfield !! 40).
Proof.
  split_and!.
  - left.
  - vm_compute. reflexivity.
  - intros [_ [Hw _]]%first_pass_elem_of.
    apply first_query_where_spec in Hw as (_ & HV & _). by apply HV.
Qed.

Section UnknownLanguageFacts.
Import Store Indexer.
Variable replace_prefixes replace_suffixes : string -> string -> string.
Variable equivalent : string -> string -> option string -> bool.

(** Lines 127-136 on a row whose language maps to "unk": the else
    branch, whatever the affix functions do. *)
Lemma equivalence_arguments_unk row :
  language_codes !! vr_language row = Some "unk" ->
  equivalence_arguments replace_prefixes replace_suffixes row
  = inr (vr_place_name row, vr_alias row, None).
Proof.
  intros Hunk. unfold equivalence_arguments, subscript. by rewrite Hunk.
Qed.

Lemma variant_kept_unk row :
  language_codes !! vr_language row = Some "unk" ->
  variant_kept replace_prefixes replace_suffixes equivalent row
  = equivalent (vr_place_name row) (vr_alias row) None.
Proof.
  intros Hunk. unfold variant_kept. by rewrite equivalence_arguments_unk.
Qed.

(** The index [__init__] leaves: the first pass, then the variants the
    second loop kept. *)
Lemma init_lookup db self id :
  init replace_prefixes replace_suffixes equivalent db = inr self ->
  get_aliases self id =
  default [] (first_pass db !! id) ++
  (variant_alias <$>
     filter (fun row =>
               vr_id row = id /\
               variant_kept replace_prefixes replace_suffixes equivalent row
                 = true) (second_query db)).
Proof.
  unfold init.
  destruct (second_loop _ _ _ (first_pass db) (second_query db))
    as [e|aliases'] eqn:Hloop; [done|].
  intros [= <-]. unfold get_aliases. cbn [aliases].
  by apply second_loop_lookup.
Qed.
End UnknownLanguageFacts.

(** C9.  Let [__init__] return, and let [a] be a Variant alias whose
    language maps to the unknown sentinel "unk".  For a row of the second
    query made of [a] and any place name, the arguments handed to the
    equivalence tester are the raw place name, the raw alias name and a
    null language, whatever the affix functions do; and [a] is in the list
    [get_aliases] returns for an id exactly when [(id, a)] is a row of the
    aliases table and the tester reports the raw name of a place row of
    that id, in the same language, equivalent to the raw alias name under
    the null language. *)
Theorem unknown_language_variant_kept :
  forall (replace_prefixes replace_suffixes : string -> string -> string)
         (equivalent : string -> string -> option string -> bool)
         (db : Store.database) (self : Indexer.formatter)
         (id : Z) (a : Store.alias) (l : string),
    Indexer.init replace_prefixes replace_suffixes equivalent db = inr self ->
    Store.alias_name_type a = "V" ->
    Store.alias_language a = Some l ->
    language_codes !! l = Some "unk" ->
    (forall place_name,
       Indexer.equivalence_arguments replace_prefixes replace_suffixes
         (Indexer.VariantRow id (Store.alias_name a) "V" l place_name)
       = inr (place_name, Store.alias_name a, None)) /\
    (a ∈ Indexer.get_aliases self id <->
     (id, a) ∈ Store.aliases_table db /\
     exists p,
       (id, p) ∈ Store.places_table db /\
       Store.place_language p = l /\
       equivalent (Store.place_name p) (Store.alias_name a) None = true).
Proof.
  intros rp rs eq db self id a l Hinit Hv Hl Hunk. split.
  - intros place_name. by apply equivalence_arguments_unk.
  - rewrite (init_lookup _ _ _ _ _ id Hinit), elem_of_app.
    split.
    + intros [Hfirst|Hsecond].
      * apply first_pass_elem_of in Hfirst as (_ & Hw & _).
        apply first_query_where_spec in Hw as (_ & HV & _). done.
      * apply list_elem_of_fmap in Hsecond as (row & Ha & Hrow).
        apply list_elem_of_filter in Hrow as [[Hid Hk] Hrow].
        apply second_query_spec in Hrow
          as (id' & a0 & p & Ha0 & Hp & Hv0 & Hl0 & ->).
        cbn in Hid. subst id'.
        assert (a0 = a) as ->.
        { destruct a0 as [n t l0]. cbn in *. by subst. }
        assert (Store.place_language p = l) as Hpl by congruence.
        split; [done|]. exists p. split_and!; [done..|].
        rewrite variant_kept_unk in Hk by (cbn; congruence). done.
    + intros (Ha & p & Hp & Hpl & Heq). right.
      apply list_elem_of_fmap.
      exists (Indexer.VariantRow id (Store.alias_name a) "V"
                (Store.place_language p) (Store.place_name p)).
      split.
      * destruct a as [n t l0]. cbn in *. by subst.
      * apply list_elem_of_filter. split.
        -- split; [done|]. rewrite variant_kept_unk by (cbn; congruence).
           done.
        -- apply second_query_spec. exists id, a, p.
           split_and!; try done. congruence.
Qed.

Lemma unknown_language_variant_kept_witness :
  let db := Sample.unknown_language in
  let self := Sample.unknown_language_formatter in
  Indexer.init Sample.all_affixes Sample.all_affixes Sample.prefix_equivalent
    db = inr self /\
  Store.Alias "Anton am Arlberg" "V" (Some "UNK")
    ∈ Indexer.get_aliases self 7 /\
  Store.Alias "Sankt Jakob" "V" (Some "UNK")
    ∉ Indexer.get_aliases self 8.
Proof.
  intros db self.
  assert (Indexer.init Sample.all_affixes Sample.all_affixes
            Sample.prefix_equivalent db = inr self) as Hinit
    by by_computation.
  assert (language_codes !! "UNK" = Some "unk") as Hunk by by_computation.
  split; [exact Hinit|]. split.
  - apply (proj2 (unknown_language_variant_kept _ _ _ _ _ 7
                    (Store.Alias "Anton am Arlberg" "V" (Some "UNK")) "UNK"
                    Hinit eq_refl eq_refl Hunk)).
    split; [left|].
    exists (Store.Place "AT" "Anton" "UNK" "Town" 1).
    split_and!; [left|done|by_computation].
  - intros Hin.
    apply (proj2 (unknown_language_variant_kept _ _ _ _ _ 8
                    (Store.Alias "Sankt Jakob" "V" (Some "UNK")) "UNK"
                    Hinit eq_refl eq_refl Hunk)) in Hin
      as (_ & p & Hp & _ & Heq).
    apply elem_of_cons in Hp as [Hp|Hp]; [discriminate Hp|].
    apply list_elem_of_singleton in Hp. injection Hp as ->.
    vm_compute in Heq. discriminate Heq.
Defined.

(** ** Facts about the collected names *)
Section AggregatorFacts.
Import Store Indexer Walker Aggregator.

Lemma place_types_not_postcode t c :
  place_types !! t = Some c -> c <> POSTCODE.
Proof.
  unfold place_types. intros H%elem_of_list_to_map_2.
  repeat (apply elem_of_cons in H as [H|H]; [by simplify_eq|]).
  by apply elem_of_nil in H.
Qed.

Lemma language_codes_not_ENG code l :
  language_codes !! code = Some l -> l <> "ENG".
Proof.
  unfold language_codes. intros H%elem_of_list_to_map_2.
  repeat (apply elem_of_cons in H as [H|H]; [by simplify_eq|]).
  by apply elem_of_nil in H.
Qed.

Lemma add_name_lookup (d : gmap category (gset string)) k name c :
  add_name d k name !! c =
  if decide (k = c) then Some (default ∅ (d !! k) ∪ {[name]}) else d !! c.
Proof. unfold add_name. apply lookup_insert. Qed.

Lemma well_formed_init : well_formed {[None := ∅]}.
Proof.
  intros key bucket Hb.
  apply lookup_singleton_Some in Hb as [<- <-].
  split_and!; [done|done|]. intros c names n Hc. by rewrite lookup_empty in Hc.
Qed.

Lemma well_formed_add language_places key place_type name :
  well_formed language_places ->
  (forall l, key = Some l -> exists code, language_codes !! code = Some l) ->
  place_type <> POSTCODE ->
  clean name ->
  well_formed (add_language_name language_places key place_type name).
Proof.
  intros Hwf Hkey Hpt Hclean key' bucket.
  unfold add_language_name. rewrite lookup_insert.
  case_decide as Hk; [|by apply Hwf].
  subst key'. intros [= <-].
  assert (default ∅ (language_places !! key) !! POSTCODE = None /\
          forall c names n,
            default ∅ (language_places !! key) !! c = Some names ->
            n ∈ names -> clean n) as [Hpost Hold].
  { destruct (language_places !! key) as [b|] eqn:Hb; simpl.
    - destruct (Hwf _ _ Hb) as (_ & ? & ?). done.
    - split; [done|]. intros c names n Hc. by rewrite lookup_empty in Hc. }
  split_and!; [done| |].
  - rewrite add_name_lookup. by rewrite decide_False.
  - intros c names n. rewrite add_name_lookup.
    case_decide as Hc; [|by apply Hold].
    intros [= <-] [Hn|Hn%elem_of_singleton]%elem_of_union; [|by subst].
    destruct (default ∅ (language_places !! key) !! place_type)
      as [old|] eqn:Ho; simpl in Hn; [by eapply Hold|].
    by apply not_elem_of_empty in Hn.
Qed.

Lemma alias_bucket_key_inr lang a key :
  alias_bucket_key lang a = inr key ->
  forall l, key = Some l -> exists code, language_codes !! code = Some l.
Proof.
  unfold alias_bucket_key.
  set (alias_lang := match alias_language a with
                     | Some l => if PyStr.truthy l then l else "UNK"
                     | None => "UNK"
                     end).
  destruct (String.eqb alias_lang lang && negb (String.eqb lang "UNK")).
  - intros [= <-] l. done.
  - unfold subscript.
    destruct (language_codes !! alias_lang) as [v|] eqn:Hv; [|done].
    intros [= <-] l [= <-]. eauto.
Qed.

Lemma alias_loop_unfold lang place_type language_places a aliases :
  alias_loop lang place_type language_places (a :: aliases) =
  match alias_bucket_key lang a with
  | inl e => inl e
  | inr key =>
      alias_loop lang place_type
        (add_language_name language_places key place_type
                           (cleanup_name (alias_name a)))
        aliases
  end.
Proof. done. Qed.

Lemma alias_loop_well_formed lang place_type aliases :
  place_type <> POSTCODE ->
  forall language_places language_places',
    well_formed language_places ->
    alias_loop lang place_type language_places aliases
      = inr language_places' ->
    well_formed language_places'.
Proof.
  intros Hpt.
  induction aliases as [|a aliases IH]; intros lp lp' Hwf.
  - by intros [= <-].
  - rewrite alias_loop_unfold.
    destruct (alias_bucket_key lang a) as [e|key] eqn:Hkey; [done|].
    apply IH. apply well_formed_add; try done.
    + by eapply alias_bucket_key_inr.
    + apply cleanup_name_clean.
Qed.

Lemma place_loop_body_well_formed self postcode_language st entry st' :
  well_formed (st_language_places st) ->
  place_loop_body self postcode_language st entry = inr st' ->
  well_formed (st_language_places st').
Proof.
  intros Hwf. unfold place_loop_body.
  destruct (if negb (st_have_default_language st)
               && negb (String.eqb (place_language entry.2)
                                   postcode_language)
            then _ else _) as [e|first]; [done|].
  cbn [mbind raise_bind]. unfold subscript at 1.
  destruct (place_types !! place_type entry.2) as [pt|] eqn:Hpt; [|done].
  cbn [mbind raise_bind].
  destruct (alias_loop _ pt _ _) as [e|lp'] eqn:Hloop; [done|].
  cbn [mbind raise_bind mret raise_ret].
  intros [= <-]. cbn [st_language_places].
  pose proof (place_types_not_postcode _ _ Hpt) as Hne.
  eapply alias_loop_well_formed; [exact Hne| |exact Hloop].
  apply well_formed_add; try done. apply cleanup_name_clean.
Qed.

Lemma place_loop_unfold self postcode_language st entry rest :
  place_loop self postcode_language st (entry :: rest) =
  match place_loop_body self postcode_language st entry with
  | inl e => inl e
  | inr st' => place_loop self postcode_language st' rest
  end.
Proof. done. Qed.

Lemma place_loop_well_formed self postcode_language place_hierarchy :
  forall st st',
    well_formed (st_language_places st) ->
    place_loop self postcode_language st place_hierarchy = inr st' ->
    well_formed (st_language_places st').
Proof.
  induction place_hierarchy as [|entry rest IH]; intros st st' Hwf.
  - by intros [= <-].
  - rewrite place_loop_unfold.
    destruct (place_loop_body self postcode_language st entry)
      as [e|st1] eqn:Hbody; [done|].
    apply IH. by eapply place_loop_body_well_formed.
Qed.

(** What [collect] returns: the buckets are well formed, and the
    language kept for the bucket [None] is the postal code's own. *)
Lemma collect_inr fuel self row agg :
  collect fuel self row = Some (inr agg) ->
  well_formed (agg_language_places agg) /\
  language_codes !! pc_language row = Some (agg_original_language agg).
Proof.
  unfold collect, subscript.
  destruct (language_codes !! pc_language row) as [language|] eqn:Hl;
    [|done].
  destruct (get_place_hierarchy fuel (places self) (pc_parent_id row))
    as [[e|place_hierarchy]|]; [done| |done].
  destruct (place_loop self (pc_language row) _ place_hierarchy)
    as [e|st] eqn:Hloop; [done|].
  cbn [mbind raise_bind mret raise_ret].
  intros [= <-]. cbn [agg_language_places agg_original_language].
  split; [|done].
  eapply place_loop_well_formed; [|exact Hloop]. apply well_formed_init.
Qed.
End AggregatorFacts.

(** ** Facts about the generated variants *)
Section GeneratorFacts.
Import Store Indexer Aggregator Generator.
Variable localized_name : string -> option string -> option string.
Variable alpha3_code : string -> option string.
Variable template_language_matters : string -> option string -> bool.
Variable format_address :
  gmap category string -> string -> option string -> bool -> option string.
Variable dropout_components :
  gmap category string -> string -> gmap category string.

(** The language a bucket is processed under is a value of
    [language_codes], hence neither [None] nor "ENG". *)
Lemma bucket_language_not_ENG code original_language key :
  language_codes !! code = Some original_language ->
  (forall l, key = Some l -> exists c, language_codes !! c = Some l) ->
  none_or_ENG (bucket_language original_language key) = false.
Proof.
  intros Ho Hkey. destruct key as [l|]; simpl.
  - destruct (Hkey l eq_refl) as [c Hc].
    apply String.eqb_neq. by eapply language_codes_not_ENG.
  - apply String.eqb_neq. by eapply language_codes_not_ENG.
Qed.

(** Under such a language line 226 is never reached. *)
Lemma add_country_names_without_alpha3 country language containing_places :
  none_or_ENG language = false ->
  add_country_names localized_name alpha3_code country language
    containing_places =
  match localized_name country language with
  | Some country_localized_name =>
      if PyStr.truthy country_localized_name
      then add_name containing_places COUNTRY country_localized_name
      else containing_places
  | None => containing_places
  end.
Proof.
  intros Hl. unfold add_country_names. rewrite Hl.
  destruct (alpha3_code country); [|done]. by rewrite andb_false_r.
Qed.

(** For every row and every bucket of its aggregate, the alpha-3 code is
    not added. *)
Lemma alpha3_code_never_added fuel self row agg key bucket :
  collect fuel self row = Some (inr agg) ->
  agg_language_places agg !! key = Some bucket ->
  let language := bucket_language (agg_original_language agg) key in
  add_country_names localized_name alpha3_code (agg_country agg) language
    bucket =
  match localized_name (agg_country agg) language with
  | Some country_localized_name =>
      if PyStr.truthy country_localized_name
      then add_name bucket COUNTRY country_localized_name
      else bucket
  | None => bucket
  end.
Proof.
  intros [Hwf Ho]%collect_inr Hb language.
  apply add_country_names_without_alpha3.
  eapply bucket_language_not_ENG; [exact Ho|].
  by destruct (Hwf _ _ Hb) as (? & _).
Qed.

(** Every record of [generate] carries the language of its bucket;
    for the bucket [None] that is the postal code's own language. *)
Lemma generate_languages tag postal_code agg r :
  r ∈ generate localized_name alpha3_code template_language_matters
        format_address dropout_components tag postal_code agg ->
  exists key bucket,
    agg_language_places agg !! key = Some bucket /\
    r.1.1 = bucket_language (agg_original_language agg) key /\
    r.1.2 = agg_country agg.
Proof.
  unfold generate. intros ([key bucket] & Hr & Hin)%list_elem_of_bind.
  apply elem_of_map_to_list in Hin. exists key, bucket.
  split; [done|]. cbn [fst snd] in Hr.
  unfold bucket_variants in Hr.
  apply list_elem_of_bind in Hr as (values & Hr & _).
  unfold tuple_variants in Hr.
  apply elem_of_cons in Hr as [->|Hr]; [done|].
  case_match; [|by apply elem_of_nil in Hr].
  apply list_elem_of_singleton in Hr as ->. done.
Qed.

Lemma product_length {A} (pools : list (list A)) :
  length (product pools) = foldr Nat.mul 1%nat (length <$> pools).
Proof.
  induction pools as [|pool pools IH]; [done|].
  cbn [product fmap list_fmap foldr]. rewrite <- IH.
  induction pool as [|x pool IHp]; [done|].
  rewrite bind_cons, length_app, IHp.
  assert ((product pools ≫= fun t => [x :: t]) = (cons x <$> product pools))
    as ->.
  { generalize (product pools). intros l.
    induction l as [|t l IHl]; [done|].
    rewrite bind_cons, fmap_cons, IHl. done. }
  rewrite length_fmap. cbn [length]. lia.
Qed.

Lemma make_components_lookup postal_code keys values k :
  k ∉ keys ->
  make_components postal_code keys values !! k =
  ({[POSTCODE := postal_code]} : gmap category string) !! k.
Proof.
  unfold make_components.
  generalize ({[POSTCODE := postal_code]} : gmap category string).
  revert values.
  induction keys as [|key keys IH]; intros values acc Hk; [done|].
  destruct values as [|v values]; [done|].
  apply not_elem_of_cons in Hk as [Hne Hk].
  cbn [zip zip_with foldl fst snd]. rewrite (IH _ _ Hk).
  by rewrite lookup_insert_ne.
Qed.

Lemma bind_length_bounds {A B} (f : A -> list B) (l : list A) :
  (forall x, 1 <= length (f x) <= 2)%nat ->
  (length l <= length (l ≫= f) <= 2 * length l)%nat.
Proof.
  intros Hf. induction l as [|x l IH]; [simpl; lia|].
  rewrite bind_cons, length_app. specialize (Hf x). simpl. lia.
Qed.
End GeneratorFacts.

(** C3, as the code has it.  After [__init__], the list of a place id is
    the list the first loop built, sorted by language and, within one
    language, by the rank of the name_type (it holds no Variant and no
    Colloquial alias), followed by the Variant aliases the second loop
    kept, in the order of the second query. *)
Theorem get_aliases_order :
  forall (replace_prefixes replace_suffixes : string -> string -> string)
         (equivalent : string -> string -> option string -> bool)
         (db : Store.database) (self : Indexer.formatter) (id : Z),
    Indexer.init replace_prefixes replace_suffixes equivalent db = inr self ->
    let first := default [] (Store.first_pass db !! id) in
    let second :=
      Indexer.variant_alias <$>
        filter (fun row =>
                  Indexer.vr_id row = id /\
                  Indexer.variant_kept replace_prefixes replace_suffixes
                    equivalent row = true)
               (Indexer.second_query db) in
    Indexer.get_aliases self id = first ++ second /\
    StronglySorted Store.language_rank_le first /\
    Forall (fun a => Store.alias_name_type a <> "V" /\
                     Store.alias_name_type a <> "S") first /\
    Forall (fun a => Store.alias_name_type a = "V") second.
Proof.
  intros rp rs eq db self id Hinit first second.
  unfold Indexer.init in Hinit.
  destruct (Indexer.second_loop rp rs eq (Store.first_pass db)
              (Indexer.second_query db)) as [e|aliases'] eqn:Hloop;
    [done|].
  injection Hinit as <-.
  split_and!.
  - unfold Indexer.get_aliases. cbn [Indexer.aliases].
    by rewrite (second_loop_lookup _ _ _ _ _ _ id Hloop).
  - apply first_pass_sorted.
  - apply Forall_forall. intros a Ha.
    apply first_pass_keeps in Ha as (_ & HS & HV & _). done.
  - apply Forall_fmap, Forall_forall. intros row Hrow.
    apply list_elem_of_filter in Hrow as [_ Hrow]. simpl.
    by apply second_query_variant in Hrow.
Qed.

Lemma get_aliases_order_witness :
  exists self,
    Indexer.init Sample.no_affixes Sample.no_affixes Sample.prefix_equivalent
      Sample.names = inr self /\
    Indexer.get_aliases self 5 =
      default [] (Store.first_pass Sample.names !! 5) ++
      [Store.Alias "Springfield Township" "V" (Some "ENG")] /\
    StronglySorted Store.language_rank_le
      (default [] (Store.first_pass Sample.names !! 5)).
Proof.
  destruct (Indexer.init Sample.no_affixes Sample.no_affixes
              Sample.prefix_equivalent Sample.names)
    as [e|self] eqn:Hinit; [by vm_compute in Hinit|].
  exists self. split; [done|].
  destruct (get_aliases_order _ _ _ _ _ 5 Hinit) as (Heq & Hs & _).
  split; [|exact Hs].
  rewrite Heq. f_equal.
Defined.

(** C3, counterexample.  The list of the town is: abbreviation (English),
    preferred name (French), variant (English); the ranks 4, 1, 3 are not
    in order. *)
Lemma get_aliases_not_by_priority :
  exists self,
    Indexer.init Sample.no_affixes Sample.no_affixes Sample.prefix_equivalent
      Sample.names = inr self /\
    Indexer.get_aliases self 5 =
      [ Store.Alias "Spfd" "A" (Some "ENG");
        Store.Alias "Champ-de-Printemps" "P" (Some "FRE");
        Store.Alias "Springfield Township" "V" (Some "ENG") ] /\
    ~ Sorted by_priority (Indexer.get_aliases self 5).
Proof.
  destruct (Indexer.init Sample.no_affixes Sample.no_affixes
              Sample.prefix_equivalent Sample.names)
    as [e|self] eqn:Hinit; [by vm_compute in Hinit|].
  exists self. split; [done|].
  assert (Indexer.get_aliases self 5 =
          [ Store.Alias "Spfd" "A" (Some "ENG");
            Store.Alias "Champ-de-Printemps" "P" (Some "FRE");
            Store.Alias "Springfield Township" "V" (Some "ENG") ]) as Hl.
  { vm_compute in Hinit. injection Hinit as <-. vm_compute. reflexivity. }
  split; [done|]. rewrite Hl. intros Hs.
  inversion Hs as [|? ? _ Hhd]; subst.
  inversion Hhd as [|? ? Hle]; subst.
  unfold by_priority in Hle. cbn in Hle. lia.
Qed.

(** ** The hierarchy walk on stores without cycle *)

Section CycleFacts.
Import Store Walker.
Variable places : gmap Z place.
Variable leaf : Z.

(** A walk that is still running after [fuel] turns has gone through
    [fuel] different places, if no id climbs to itself. *)
Lemma walk_out_of_fuel fuel : forall place_id,
  (forall x, ~ climbs places leaf x x) ->
  walk fuel places leaf place_id = None ->
  (place_id <> 1 /\ place_id <> leaf) /\
  exists ids,
    length ids = fuel /\ NoDup ids /\
    (forall x, x ∈ ids -> x <> leaf /\ is_Some (places !! x)) /\
    (forall x, x ∈ ids -> x = place_id \/ climbs places leaf place_id x).
Proof.
  induction fuel as [|fuel IH]; intros place_id Hacyclic; cbn [walk].
  - case_bool_decide as Hc; [|done]. intros _. split; [done|].
    exists []. split_and!; [done|constructor|..];
      intros x Hx; by apply elem_of_nil in Hx.
  - case_bool_decide as Hc; [|done]. destruct Hc as [H1 Hl].
    destruct (places !! place_id) as [p|] eqn:Hp; [|done].
    destruct (walk fuel places leaf (place_parent_id p)) as [r|] eqn:Hw;
      [by destruct r|].
    intros _. split; [done|].
    destruct (IH _ Hacyclic Hw) as ([Hp1 Hpl] & ids & Hlen & Hnd & Hin & Hcl).
    assert (forall x, x ∈ ids -> climbs places leaf place_id x) as Hup.
    { intros x Hx. destruct (Hcl x Hx) as [->|Hx'].
      - by apply climbs_link.
      - by eapply climbs_further. }
    exists (place_id :: ids). split_and!.
    + cbn. by rewrite Hlen.
    + constructor; [|done]. intros Hx. by apply (Hacyclic place_id), Hup.
    + intros x [->|Hx]%elem_of_cons; [eauto|by apply Hin].
    + intros x [->|Hx]%elem_of_cons; [by left|right; by apply Hup].
Qed.

(** Parents with smaller ids than their children leave no room for a
    cycle. *)
Lemma climbs_descends a b :
  (forall x p, places !! x = Some p -> x <> 1 -> x <> leaf ->
               place_parent_id p <> 1 -> place_parent_id p <> leaf ->
               place_parent_id p < x) ->
  climbs places leaf a b -> b < a.
Proof.
  intros Hlinks. induction 1 as [a p H1 Hl Hp Hp1 Hpl|a p b H1 Hl Hp Hc IH].
  - by apply Hlinks.
  - inversion Hc; subst; specialize (Hlinks a p Hp H1 Hl); lia.
Qed.
End CycleFacts.

(** C7, as the code has it.  For every leaf place id and every store, a
    list the hierarchy walk returns repeats no place id and has at most as
    many entries as the store has places.  The walk terminates for every
    store whose parent links have no cycle that avoids both the root id 1
    and the leaf id: it then returns (a list, or the KeyError of a missing
    place) within as many turns of its loop as the store has places.  It
    does not terminate for every shape of the parent links, see the
    counterexample. *)
Theorem hierarchy_walk_terminates_without_cycle :
  forall (places : gmap Z Store.place) (leaf : Z),
    (forall fuel all_places,
       Walker.get_place_hierarchy fuel places leaf = Some (inr all_places) ->
       NoDup all_places.*1 /\ (length all_places <= size places)%nat) /\
    ((forall x, ~ climbs places leaf x x) ->
     exists r,
       forall fuel, (size places <= fuel)%nat ->
         Walker.get_place_hierarchy fuel places leaf = Some r).
Proof.
  intros places leaf. split.
  { intros fuel all_places. apply get_place_hierarchy_NoDup. }
  intros Hacyclic.
  destruct (Walker.get_place_hierarchy (size places) places leaf)
    as [r|] eqn:Hr.
  - exists r. intros fuel Hle.
    by apply (get_place_hierarchy_more_fuel _ _ _ _ _ Hr).
  - exfalso. unfold Walker.get_place_hierarchy in Hr.
    destruct (places !! leaf) as [p|] eqn:Hleaf; [|done].
    destruct (Walker.walk (size places) places leaf
                (Store.place_parent_id p)) as [r|] eqn:Hw;
      [by destruct r|].
    destruct (walk_out_of_fuel _ _ _ _ Hacyclic Hw)
      as (_ & ids & Hlen & Hnd & Hin & _).
    assert (length (leaf :: ids) <= size places)%nat as Hbound.
    { apply distinct_ids_bound.
      - constructor; [|done]. intros Hx. by destruct (Hin _ Hx).
      - intros x [->|Hx]%elem_of_cons; [eauto|]. by destruct (Hin _ Hx). }
    cbn in Hbound. lia.
Qed.

Lemma hierarchy_walk_terminates_without_cycle_witness :
  let places := Store.load_places (Store.places_table Sample.springfield) in
  (forall x, ~ climbs places 40 x x) /\
  exists r,
    forall fuel, (size places <= fuel)%nat ->
      Walker.get_place_hierarchy fuel places 40 = Some r.
Proof.
  intros places.
  assert (forall x, ~ climbs places 40 x x) as Hacyclic.
  { intros x Hx. apply climbs_descends in Hx; [lia|].
    intros a p Hp _ _ Hp1 _.
    assert (map_Forall (fun a p => Store.place_parent_id p = 1 \/
                                   Store.place_parent_id p < a) places)
      as Hall.
    { apply (bool_decide_eq_true_1 (map_Forall _ _)). by_computation. }
    destruct (map_Forall_lookup_1 _ _ _ _ Hall Hp); [done|lia]. }
  split; [exact Hacyclic|].
  exact (proj2 (hierarchy_walk_terminates_without_cycle places 40) Hacyclic).
Defined.

(** C7, counterexample.  From the leaf 2 the parent links lead into the
    cycle 3 -> 4 -> 3, which holds neither the root id 1 nor the leaf: the
    walk does not return, however many turns it is given. *)
Lemma hierarchy_walk_cycle_never_returns :
  ~ exists fuel r,
      Walker.get_place_hierarchy fuel Sample.cyclic 2 = Some r.
Proof.
  intros (fuel & r & Hr).
  apply get_place_hierarchy_within_store in Hr.
  vm_compute in Hr. discriminate.
Qed.

(** C8, as the code has it.  In every bucket the aggregator produces for a
    row, country names included, every candidate set is free of duplicates
    and each of its names is either clean (no space, comma or hyphen at
    either end, possibly the empty string) or the non-empty localized
    country name, added to the Country category as the resolver returned
    it; the raw name " Paris, " is stored as "Paris". *)
Theorem bucket_names_clean_distinct :
  forall (localized_name : string -> option string -> option string)
         (alpha3_code : string -> option string)
         (fuel : nat) (self : Indexer.formatter)
         (row : Store.postal_code_row) (agg : Aggregator.aggregate)
         (key : option string) (bucket : gmap category (gset string))
         (c : category) (names : gset string),
    Aggregator.collect fuel self row = Some (inr agg) ->
    Aggregator.agg_language_places agg !! key = Some bucket ->
    Generator.add_country_names localized_name alpha3_code
      (Aggregator.agg_country agg)
      (Generator.bucket_language (Aggregator.agg_original_language agg) key)
      bucket !! c = Some names ->
    NoDup (elements names) /\
    (forall n, n ∈ names ->
       clean n \/
       (c = COUNTRY /\ n <> EmptyString /\
        localized_name (Aggregator.agg_country agg)
          (Generator.bucket_language
             (Aggregator.agg_original_language agg) key) = Some n)) /\
    cleanup_name " Paris, " = "Paris".
Proof.
  intros ln a3 fuel self row agg key bucket c names Hcollect Hbucket.
  rewrite (alpha3_code_never_added ln a3 _ _ _ _ _ _ Hcollect Hbucket).
  destruct (collect_inr _ _ _ _ Hcollect) as [Hwf _].
  destruct (Hwf _ _ Hbucket) as (_ & _ & Hclean).
  intros Hnames. split; [apply NoDup_elements|]. split; [|reflexivity].
  intros n Hn.
  destruct (ln (Aggregator.agg_country agg) _) as [name|] eqn:Hln;
    [|left; by eapply Hclean].
  destruct (PyStr.truthy name) eqn:Htruthy; [|left; by eapply Hclean].
  rewrite add_name_lookup in Hnames.
  case_decide as Hc; [|left; by eapply Hclean].
  injection Hnames as <-.
  apply elem_of_union in Hn as [Hn|Hn%elem_of_singleton].
  - left. destruct (bucket !! COUNTRY) as [old|] eqn:Hold; simpl in Hn.
    + by eapply Hclean.
    + by apply not_elem_of_empty in Hn.
  - right. subst n c. split_and!; [done| |done].
    intros ->. done.
Qed.

Lemma bucket_names_clean_distinct_witness :
  let db := Sample.springfield in
  Aggregator.collect 4 (Sample.formatter_of db)
    (Sample.first_row db)
    = Some (inr (Sample.aggregate_of db)) /\
  NoDup (elements (Sample.candidates_of db COUNTRY)) /\
  forall n, n ∈ Sample.candidates_of db COUNTRY ->
    clean n \/
    (COUNTRY = COUNTRY /\ n <> EmptyString /\
     Sample.localized_name
       (Aggregator.agg_country (Sample.aggregate_of db))
       (Generator.bucket_language
          (Aggregator.agg_original_language (Sample.aggregate_of db))
          None) = Some n).
Proof.
  intros db.
  assert (Aggregator.collect 4 (Sample.formatter_of db)
            (Sample.first_row db)
          = Some (inr (Sample.aggregate_of db))) as Hcollect
    by by_computation.
  split; [exact Hcollect|].
  refine (let H := bucket_names_clean_distinct Sample.localized_name
                     Sample.alpha3_code 4 _ _ _ None
                     (default ∅ (Aggregator.agg_language_places
                                   (Sample.aggregate_of db) !! None))
                     COUNTRY (Sample.candidates_of db COUNTRY)
                     Hcollect _ _ in conj (proj1 H) (proj1 (proj2 H)));
    by_computation.
Defined.

(** C8, counterexample.  The town is named "--"; [cleanup_name] leaves the
    empty string, and the empty string is a candidate of the City
    category. *)
Lemma bucket_name_may_be_empty :
  let db := Sample.hyphens in
  Sample.run_init db = inr (Sample.formatter_of db) /\
  Aggregator.collect 1 (Sample.formatter_of db)
    (Store.PostalCode 3 "US" "00000" "ENG" "Zip" 70)
    = Some (inr (Sample.aggregate_of db)) /\
  EmptyString ∈ Sample.candidates_of db CITY.
Proof.
  split_and!; [by_computation..|].
  apply (bool_decide_eq_true_1 (EmptyString ∈ _)). by_computation.
Qed.

(** C4, evaluated on the scenario of the specification.  The bucket [None]
    of postal code 65801 is processed under the language "en", the
    resolver knows the alpha-3 code "USA" of the country, and the
    candidates of the Country category are "United States" alone: line 225
    compares the language with [None] and the GeoPlanet code 'ENG', and a
    bucket's language is always a value of [language_codes]
    ([alpha3_code_never_added]). *)
Theorem alpha3_code_missing_in_scenario :
  let db := Sample.springfield in
  let agg := Sample.aggregate_of db in
  Sample.run_init db = inr (Sample.formatter_of db) /\
  Aggregator.collect 4 (Sample.formatter_of db)
    (Store.PostalCode 1 "US" "65801" "ENG" "Zip" 40) = Some (inr agg) /\
  Generator.bucket_language (Aggregator.agg_original_language agg) None
    = Some "en" /\
  Sample.alpha3_code (Aggregator.agg_country agg) = Some "USA" /\
  Sample.candidates_of db COUNTRY = {[ "United States" ]} /\
  "USA" ∉ Sample.candidates_of db COUNTRY.
Proof.
  split_and!; [by_computation..|].
  apply (bool_decide_eq_false_1 ("USA" ∈ _)). by_computation.
Qed.

(** What C1 is about, as the code has it: the variants of the bucket
    [None] carry the language of the postal code, because
    [original_language] is assigned before the loop that looks for the
    first ancestor in another language. *)
Lemma default_bucket_language fuel self row agg :
  Aggregator.collect fuel self row = Some (inr agg) ->
  language_codes !! Store.pc_language row
  = Generator.bucket_language (Aggregator.agg_original_language agg) None.
Proof. by intros [_ ->]%collect_inr. Qed.

(** C1, evaluated on a failing input.  The postal code 75001 is tagged
    'ENG'; its first ancestor, Paris, is tagged 'FRE', which maps to "fr".
    The one variant generated comes from the bucket [None] and carries
    "en". *)
Theorem default_bucket_language_in_scenario :
  let db := Sample.paris in
  let agg := Sample.aggregate_of db in
  Sample.run_init db = inr (Sample.formatter_of db) /\
  Walker.get_place_hierarchy 2 (Indexer.places (Sample.formatter_of db))
    60
  = Some (inr [ (60, Store.Place "FR" "Paris" "FRE" "Town" 50);
                (50, Store.Place "FR" "France" "FRE" "Country" 1) ]) /\
  language_codes !! "FRE" = Some "fr" /\
  Aggregator.collect 2 (Sample.formatter_of db)
    (Store.PostalCode 2 "FR" "75001" "ENG" "Zip" 60) = Some (inr agg) /\
  dom (Aggregator.agg_language_places agg) = {[ None ]} /\
  Generator.generate Sample.localized_name Sample.alpha3_code
    Sample.language_never_matters Sample.join_values Sample.no_dropout
    true "75001" agg
  = [ (Some "en", "fr", Some "Paris 75001 France ") ].
Proof. split_and!; by_computation. Qed.

(** ** The tuples of a bucket *)
Section TupleFacts.
Import Store Indexer Aggregator Generator.

Lemma product_Forall2 {A} (pools : list (list A)) t :
  t ∈ product pools -> Forall2 (fun x pool => x ∈ pool) t pools.
Proof.
  revert t. induction pools as [|pool pools IH]; intros t; cbn [product].
  - intros ->%list_elem_of_singleton. constructor.
  - intros (x & Ht & Hx)%list_elem_of_bind.
    apply list_elem_of_bind in Ht as (t' & Ht & Ht').
    apply list_elem_of_singleton in Ht as ->.
    constructor; [done|]. by apply IH.
Qed.

Lemma update_lookup_other (keys : list category) :
  forall (values : list string) (acc : gmap category string) k,
    k ∉ keys ->
    foldl (fun components kv => <[kv.1 := kv.2]> components) acc
          (zip keys values) !! k = acc !! k.
Proof.
  induction keys as [|key keys IH]; intros values acc k Hk; [done|].
  destruct values as [|v values]; [done|].
  apply not_elem_of_cons in Hk as [Hne Hk].
  cbn [zip zip_with foldl fst snd]. rewrite (IH _ _ _ Hk).
  by rewrite lookup_insert_ne.
Qed.

(** After [components.update(zip(keys, values))] every key holds the
    value at its own position. *)
Lemma update_lookup_chosen (items : list (category * gset string)) :
  forall (values : list string) (acc : gmap category string),
    NoDup items.*1 ->
    Forall2 (fun v names => v ∈ names) values (elements <$> items.*2) ->
    forall k names, (k, names) ∈ items ->
      exists v,
        foldl (fun components kv => <[kv.1 := kv.2]> components) acc
              (zip items.*1 values) !! k = Some v /\ v ∈ names.
Proof.
  induction items as [|[k0 names0] items IH]; intros values acc Hnd Hall
    k names Hin; [by apply elem_of_nil in Hin|].
  cbn [fmap list_fmap fst snd] in *.
  apply Forall2_cons_inv_r in Hall as (v0 & values' & Hv0 & Hall & ->).
  apply NoDup_cons in Hnd as [Hk0 Hnd].
  cbn [zip zip_with foldl fst snd].
  apply elem_of_cons in Hin as [[= -> ->]|Hin].
  - exists v0. rewrite update_lookup_other by done.
    rewrite lookup_insert_eq. split; [done|]. by apply elem_of_elements.
  - by apply IH.
Qed.

Lemma Forall2_product {A} (pools : list (list A)) t :
  Forall2 (fun x pool => x ∈ pool) t pools -> t ∈ product pools.
Proof.
  induction 1 as [|x pool t pools Hx _ IH]; cbn [product].
  - by apply list_elem_of_singleton.
  - apply list_elem_of_bind. exists x. split; [|done].
    apply list_elem_of_bind. exists t. split; [|done].
    by apply list_elem_of_singleton.
Qed.

Lemma product_NoDup {A} (pools : list (list A)) :
  Forall NoDup pools -> NoDup (product pools).
Proof.
  induction 1 as [|pool pools Hpool _ IH]; cbn [product].
  - apply NoDup_singleton.
  - apply NoDup_bind; [|intros x _|done].
    + intros x1 x2 t _ _ (t1 & Ht1 & _)%list_elem_of_bind
        (t2 & Ht2 & _)%list_elem_of_bind.
      apply list_elem_of_singleton in Ht1, Ht2. congruence.
    + apply NoDup_bind; [|intros t _; apply NoDup_singleton|done].
      intros t1 t2 t _ _ Ht1%list_elem_of_singleton
        Ht2%list_elem_of_singleton.
      congruence.
Qed.

(** After [components.update(zip(keys, values))] the key at a position
    holds the value at that position, if no key occurs twice. *)
Lemma update_lookup_index (keys : list category) :
  forall (values : list string) (acc : gmap category string) i k v,
    NoDup keys -> keys !! i = Some k -> values !! i = Some v ->
    foldl (fun components kv => <[kv.1 := kv.2]> components) acc
          (zip keys values) !! k = Some v.
Proof.
  induction keys as [|key keys IH]; intros values acc i k v Hnd Hk Hv;
    [done|].
  destruct values as [|v0 values]; [done|].
  apply NoDup_cons in Hnd as [Hkey Hnd].
  cbn [zip zip_with foldl fst snd].
  destruct i as [|i]; cbn in Hk, Hv.
  - injection Hk as ->. injection Hv as ->.
    rewrite update_lookup_other by done. apply lookup_insert_eq.
  - by apply (IH _ _ i).
Qed.

(** Two tuples of the same bucket with the same components are the same
    tuple. *)
Lemma make_components_inj postal_code (keys : list category)
    (values1 values2 : list string) :
  NoDup keys ->
  length values1 = length keys -> length values2 = length keys ->
  make_components postal_code keys values1
  = make_components postal_code keys values2 ->
  values1 = values2.
Proof.
  intros Hnd Hl1 Hl2 Heq. apply list_eq. intros i.
  destruct (keys !! i) as [k|] eqn:Hk.
  - assert (i < length keys)%nat as Hi by (by eapply lookup_lt_Some).
    destruct (lookup_lt_is_Some_2 values1 i) as [v1 Hv1]; [lia|].
    destruct (lookup_lt_is_Some_2 values2 i) as [v2 Hv2]; [lia|].
    assert (make_components postal_code keys values1 !! k = Some v1) as H1
      by (by eapply update_lookup_index).
    assert (make_components postal_code keys values2 !! k = Some v2) as H2
      by (by eapply update_lookup_index).
    rewrite Hv1, Hv2. congruence.
  - apply lookup_ge_None in Hk.
    rewrite !(proj2 (lookup_ge_None _ _)) by lia. done.
Qed.

Variable postal_code : string.
Variable containing_places : gmap category (gset string).
Hypothesis no_postcode : containing_places !! POSTCODE = None.

Lemma keys_not_elem_of c :
  containing_places !! c = None -> c ∉ (map_to_list containing_places).*1.
Proof.
  intros Hc ([k names] & Hk & Hin)%list_elem_of_fmap.
  apply elem_of_map_to_list in Hin. cbn in Hk. congruence.
Qed.

Lemma make_components_chooses values :
  values ∈ product (elements <$> (map_to_list containing_places).*2) ->
  chooses postal_code containing_places
    (make_components postal_code (map_to_list containing_places).*1 values).
Proof.
  intros Hvalues. unfold chooses, make_components. split_and!.
  - rewrite update_lookup_other by (by apply keys_not_elem_of).
    apply lookup_singleton_eq.
  - intros c names Hc. apply update_lookup_chosen.
    + apply NoDup_fst_map_to_list.
    + by apply product_Forall2.
    + by apply elem_of_map_to_list.
  - intros c Hne Hc.
    rewrite update_lookup_other by (by apply keys_not_elem_of).
    by apply lookup_singleton_ne.
Qed.

Lemma chooses_make_components components :
  chooses postal_code containing_places components ->
  exists values,
    values ∈ product (elements <$> (map_to_list containing_places).*2) /\
    components
    = make_components postal_code (map_to_list containing_places).*1 values.
Proof.
  intros (Hpost & Hin & Hout).
  exists ((fun kv : category * gset string =>
             default EmptyString (components !! kv.1))
          <$> map_to_list containing_places).
  split.
  - apply Forall2_product.
    rewrite <- list_fmap_compose. apply Forall2_fmap.
    apply Forall_Forall2_diag, Forall_forall.
    intros [k names] Hk%elem_of_map_to_list. cbn.
    destruct (Hin _ _ Hk) as (v & -> & Hv). cbn.
    by apply elem_of_elements.
  - apply map_eq. intros c. unfold make_components.
    destruct (containing_places !! c) as [names|] eqn:Hc.
    + destruct (Hin _ _ Hc) as (v & Hv & _).
      apply elem_of_map_to_list, list_elem_of_lookup in Hc as [i Hi].
      rewrite Hv. symmetry.
      apply (update_lookup_index _ _ _ i).
      * apply NoDup_fst_map_to_list.
      * by rewrite list_lookup_fmap, Hi.
      * rewrite list_lookup_fmap, Hi. cbn. by rewrite Hv.
    + rewrite update_lookup_other by (by apply keys_not_elem_of).
      destruct (decide (c = POSTCODE)) as [->|Hne].
      * by rewrite lookup_singleton_eq.
      * rewrite lookup_singleton_ne by done. by apply Hout.
Qed.

(** The component dictionaries the loop of lines 231-250 goes through:
    as many as the product of the sizes, no two alike, and exactly the
    dictionaries that choose one candidate per category. *)
Lemma bucket_tuples :
  let tuples :=
    make_components postal_code (map_to_list containing_places).*1
      <$> product (elements <$> (map_to_list containing_places).*2) in
  length tuples
  = foldr Nat.mul 1%nat (size <$> (map_to_list containing_places).*2) /\
  NoDup tuples /\
  (forall components,
     components ∈ tuples <->
     chooses postal_code containing_places components).
Proof.
  intros tuples. unfold tuples. split_and!.
  - rewrite length_fmap, product_length.
    by rewrite <- list_fmap_compose.
  - assert (forall values,
              values ∈ product
                         (elements <$> (map_to_list containing_places).*2) ->
              length values = length (map_to_list containing_places).*1)
      as Hlen.
    { intros values Hv%product_Forall2%Forall2_length.
      by rewrite !length_fmap in *. }
    apply NoDup_fmap_2_strong.
    + intros values1 values2 H1 H2.
      apply make_components_inj; auto. apply NoDup_fst_map_to_list.
    + apply product_NoDup.
      apply Forall_fmap, Forall_forall. intros names _.
      apply NoDup_elements.
  - intros components. rewrite list_elem_of_fmap. split.
    + intros (values & -> & Hv). by apply make_components_chooses.
    + intros (values & ? & ?)%chooses_make_components. eauto.
Qed.
End TupleFacts.

Lemma bind_length_optional {A B} (f : A -> B) (g : A -> bool) (h : A -> B)
    (l : list A) :
  length (x ← l; f x :: (if g x then [h x] else []))
  = (length l + length (filter (fun x => g x = true) l))%nat.
Proof.
  induction l as [|x l IH]; [done|].
  rewrite bind_cons, length_app, IH, filter_cons.
  destruct (g x); [rewrite decide_True by done|rewrite decide_False by done];
    cbn [length]; lia.
Qed.

(** C5, as the code has it.  For a bucket without Postcode entry and with
    candidate sets of sizes n1..nk, the loop over the product goes through
    exactly n1*...*nk component dictionaries, no two alike; they are
    exactly the dictionaries that fix Postcode to the postal code, give
    every category of the bucket one of its own candidates and set nothing
    else.  For each of them in turn the bucket yields the full variant
    formatted from it, followed by a dropout variant for THAT tuple when
    the dictionary the dropout returns for it has more than one component
    and another key set than the full one.  So the bucket yields
    n1*...*nk full variants plus one dropout variant per tuple that passes
    the test, not one per bucket. *)
Theorem bucket_variants_per_tuple :
  forall (template_language_matters : string -> option string -> bool)
         (format_address : gmap category string -> string -> option string ->
                           bool -> option string)
         (dropout_components : gmap category string -> string ->
                               gmap category string)
         (tag_components : bool) (language : option string)
         (country postal_code : string)
         (containing_places : gmap category (gset string)),
    containing_places !! POSTCODE = None ->
    let format_language :=
      if template_language_matters country language then language
      else None in
    let with_dropout (components : gmap category string) : bool :=
      bool_decide (1 < size (dropout_components components country))%nat
      && bool_decide (dom (dropout_components components country)
                      <> dom components) in
    exists tuples : list (gmap category string),
      length tuples
      = foldr Nat.mul 1%nat (size <$> (map_to_list containing_places).*2) /\
      NoDup tuples /\
      (forall components,
         components ∈ tuples <->
         components !! POSTCODE = Some postal_code /\
         (forall c names,
            containing_places !! c = Some names ->
            exists v, components !! c = Some v /\ v ∈ names) /\
         (forall c,
            c <> POSTCODE -> containing_places !! c = None ->
            components !! c = None)) /\
      Generator.bucket_variants template_language_matters format_address
        dropout_components tag_components language country postal_code
        containing_places
      = (components ← tuples;
         (language, country,
          format_address components country format_language tag_components)
         :: (if with_dropout components
             then [(language, country,
                    format_address (dropout_components components country)
                      country format_language tag_components)]
             else [])) /\
      length (Generator.bucket_variants template_language_matters
                format_address dropout_components tag_components language
                country postal_code containing_places)
      = (length tuples
         + length (filter (fun components =>
                             with_dropout components = true) tuples))%nat.
Proof.
  intros tlm fa dc tag language country pc cp Hpost format_language
    with_dropout.
  destruct (bucket_tuples pc cp Hpost) as (Hlen & Hnd & Hin).
  exists (Generator.make_components pc (map_to_list cp).*1
            <$> Generator.product (elements <$> (map_to_list cp).*2)).
  assert (Generator.bucket_variants tlm fa dc tag language country pc cp
    = (components ← Generator.make_components pc (map_to_list cp).*1
                      <$> Generator.product
                            (elements <$> (map_to_list cp).*2);
       (language, country, fa components country format_language tag)
       :: (if with_dropout components
           then [(language, country,
                  fa (dc components country) country format_language tag)]
           else []))) as Heq.
  { unfold Generator.bucket_variants.
    generalize (Generator.product (elements <$> (map_to_list cp).*2)).
    intros l. induction l as [|values l IH]; [done|].
    rewrite fmap_cons, !bind_cons, IH. done. }
  split_and!; [exact Hlen|exact Hnd|exact Hin|exact Heq|].
  rewrite Heq. apply bind_length_optional.
Qed.

Lemma bucket_variants_per_tuple_witness :
  let bucket : gmap category (gset string) :=
    {[ CITY := {[ "Springfield"; "Springfield Township" ]};
       STATE := {[ "Missouri" ]} ]} in
  let with_dropout (components : gmap category string) : bool :=
    bool_decide (1 < size (Sample.drop_state components "us"))%nat
    && bool_decide (dom (Sample.drop_state components "us")
                    <> dom components) in
  bucket !! POSTCODE = None /\
  exists tuples : list (gmap category string),
    length tuples = foldr Nat.mul 1%nat (size <$> (map_to_list bucket).*2) /\
    NoDup tuples /\
    (forall components,
       components ∈ tuples <->
       components !! POSTCODE = Some "65801" /\
       (forall c names,
          bucket !! c = Some names ->
          exists v, components !! c = Some v /\ v ∈ names) /\
       (forall c,
          c <> POSTCODE -> bucket !! c = None -> components !! c = None)) /\
    Generator.bucket_variants Sample.language_never_matters
      Sample.join_values Sample.drop_state true (Some "en") "us" "65801"
      bucket
    = (components ← tuples;
       (Some "en", "us", Sample.join_values components "us" None true)
       :: (if with_dropout components
           then [(Some "en", "us",
                  Sample.join_values (Sample.drop_state components "us")
                    "us" None true)]
           else [])) /\
    length (Generator.bucket_variants Sample.language_never_matters
              Sample.join_values Sample.drop_state true (Some "en") "us"
              "65801" bucket)
    = (length tuples
       + length (filter (fun components => with_dropout components = true)
                        tuples))%nat.
Proof.
  intros bucket with_dropout.
  assert (bucket !! POSTCODE = None) as Hpost by by_computation.
  split; [exact Hpost|].
  exact (bucket_variants_per_tuple Sample.language_never_matters
           Sample.join_values Sample.drop_state true (Some "en") "us"
           "65801" bucket Hpost).
Defined.

(** C5, counterexample.  A bucket with two cities and one state has two
    product tuples.  With a dropout that removes the state, each tuple
    yields its own dropout variant: four variants, not at most three. *)
Lemma one_dropout_per_tuple :
  let bucket : gmap category (gset string) :=
    {[ CITY := {[ "Springfield"; "Springfield Township" ]};
       STATE := {[ "Missouri" ]} ]} in
  foldr Nat.mul 1%nat (size <$> (map_to_list bucket).*2) = 2%nat /\
  Generator.bucket_variants Sample.language_never_matters Sample.join_values
    Sample.drop_state true (Some "en") "us" "65801" bucket
  = [ (Some "en", "us", Some "Springfield Township 65801 Missouri ");
      (Some "en", "us", Some "Springfield Township 65801 ");
      (Some "en", "us", Some "Springfield 65801 Missouri ");
      (Some "en", "us", Some "Springfield 65801 ") ] /\
  ~ (length (Generator.bucket_variants Sample.language_never_matters
               Sample.join_values Sample.drop_state true (Some "en") "us"
               "65801" bucket)
     <= foldr Nat.mul 1%nat (size <$> (map_to_list bucket).*2) + 1)%nat.
Proof.
  intros bucket.
  assert (foldr Nat.mul 1%nat (size <$> (map_to_list bucket).*2) = 2%nat)
    as Hn by by_computation.
  assert (length (Generator.bucket_variants Sample.language_never_matters
                    Sample.join_values Sample.drop_state true (Some "en")
                    "us" "65801" bucket) = 4%nat) as Hl by by_computation.
  split; [exact Hn|]. split; [by_computation|].
  rewrite Hn, Hl. lia.
Qed.

(** ** Facts about the batch *)
Section BatchFacts.
Import Store Indexer Aggregator Generator Batch.
Variable localized_name : string -> option string -> option string.
Variable alpha3_code : string -> option string.
Variable template_language_matters : string -> option string -> bool.
Variable format_address :
  gmap category string -> string -> option string -> bool -> option string.
Variable dropout_components :
  gmap category string -> string -> gmap category string.
Variable tsv_string : string -> option string.

(** The buckets handed to the generator have no Postcode entry. *)
Lemma add_country_names_postcode country language
    (containing_places : gmap category (gset string)) :
  containing_places !! POSTCODE = None ->
  add_country_names localized_name alpha3_code country language
    containing_places !! POSTCODE = None.
Proof.
  intros Hpost. unfold add_country_names.
  repeat case_match; rewrite ?add_name_lookup;
    rewrite ?decide_False by done; rewrite ?add_name_lookup;
    rewrite ?decide_False by done; done.
Qed.

(** Rows after rows that raised nothing. *)
Lemma format_postal_codes_app fuel self tag rows1 rows2 s :
  format_postal_codes localized_name alpha3_code template_language_matters
    format_address dropout_components fuel self tag rows1 = Some s ->
  raised s = None ->
  format_postal_codes localized_name alpha3_code template_language_matters
    format_address dropout_components fuel self tag (rows1 ++ rows2)
  = match format_postal_codes localized_name alpha3_code
            template_language_matters format_address dropout_components
            fuel self tag rows2 with
    | None => None
    | Some s' => Some (Stream (yielded s ++ yielded s') (raised s'))
    end.
Proof.
  revert s. induction rows1 as [|row rows1 IH]; intros s.
  - intros [= <-] _. cbn [app yielded].
    by destruct (format_postal_codes _ _ _ _ _ fuel self tag rows2)
      as [[]|].
  - cbn [app format_postal_codes].
    destruct (format_postal_code _ _ _ _ _ fuel self tag row)
      as [[e|records]|]; [by intros [= <-] ?| |done].
    destruct (format_postal_codes _ _ _ _ _ fuel self tag rows1)
      as [s1|] eqn:H1; [|done].
    intros [= <-] Hraised. cbn [raised yielded] in *.
    rewrite (IH s1 eq_refl Hraised).
    destruct (format_postal_codes _ _ _ _ _ fuel self tag rows2)
      as [s2|]; [|done].
    cbn [yielded raised]. by rewrite app_assoc.
Qed.
End BatchFacts.

(** C6, as the code has it.  When the rows before a postal code have been
    processed without exception and that postal code raises a KeyError
    (unknown place id, unknown language code or unknown place type), the
    exception leaves [format_postal_codes] and [build_training_data]: the
    rows written are those of the earlier postal codes, and whatever
    postal codes follow are not processed. *)
Theorem exception_ends_the_batch :
  forall (localized_name : string -> option string -> option string)
         (alpha3_code : string -> option string)
         (template_language_matters : string -> option string -> bool)
         (format_address : gmap category string -> string -> option string ->
                           bool -> option string)
         (dropout_components : gmap category string -> string ->
                               gmap category string)
         (tsv_string : string -> option string)
         (fuel : nat) (self : Indexer.formatter) (tag_components : bool)
         (before : list Store.postal_code_row) (row : Store.postal_code_row)
         (after : list Store.postal_code_row)
         (s : Batch.stream Generator.record) (e : error),
    Batch.format_postal_codes localized_name alpha3_code
      template_language_matters format_address dropout_components
      fuel self tag_components before = Some s ->
    Batch.raised s = None ->
    Generator.format_postal_code localized_name alpha3_code
      template_language_matters format_address dropout_components
      fuel self tag_components row = Some (inl e) ->
    Batch.build_training_data localized_name alpha3_code
      template_language_matters format_address dropout_components tsv_string
      fuel self tag_components (before ++ row :: after)
    = Some (Batch.Stream
              (r ← Batch.yielded s;
               Batch.write_record tsv_string tag_components r)
              (Some e)).
Proof.
  intros ln a3 tlm fa dc tsv fuel self tag before row after s e
         Hbefore Hraised Hrow.
  unfold Batch.build_training_data.
  rewrite (format_postal_codes_app _ _ _ _ _ _ _ _ _ _ _ Hbefore Hraised).
  cbn [Batch.format_postal_codes]. rewrite Hrow.
  cbn [Batch.yielded Batch.raised]. by rewrite app_nil_r.
Qed.

Lemma exception_ends_the_batch_witness :
  let self := Sample.formatter_of Sample.springfield in
  let good := Store.PostalCode 1 "US" "65801" "ENG" "Zip" 40 in
  let bad := Store.PostalCode 9 "US" "99999" "XXX" "Zip" 40 in
  Batch.build_training_data Sample.localized_name Sample.alpha3_code
    Sample.language_never_matters Sample.join_values Sample.no_dropout
    Sample.tsv_identity 4 self true ([good] ++ bad :: [good])
  = Some (Batch.Stream
            [ Batch.Tagged (Some "en") "us"
                "Springfield Township Greene County 65801 Missouri United States ";
              Batch.Tagged (Some "en") "us"
                "Springfield Greene County 65801 Missouri United States " ]
            (Some (KeyError_language_codes "XXX"))).
Proof.
  intros self good bad.
  refine (eq_trans
            (exception_ends_the_batch Sample.localized_name
               Sample.alpha3_code Sample.language_never_matters
               Sample.join_values Sample.no_dropout Sample.tsv_identity
               4 self true [good] bad [good]
               (Batch.Stream
                  [ (Some "en", "us",
                     Some "Springfield Township Greene County 65801 Missouri United States ");
                    (Some "en", "us",
                     Some "Springfield Greene County 65801 Missouri United States ") ]
                  None)
               (KeyError_language_codes "XXX") _ _ _) _);
    by_computation.
Defined.

(** C6, counterexample.  A postal code with the unknown language 'XXX'
    comes before the postal code 65801.  The claim has the first skipped
    and the second written; the batch stops on the KeyError with nothing
    written, although the second postal code alone gives two rows. *)
Lemma unknown_language_aborts_the_batch :
  let self := Sample.formatter_of Sample.springfield in
  Batch.build_training_data Sample.localized_name Sample.alpha3_code
    Sample.language_never_matters Sample.join_values Sample.no_dropout
    Sample.tsv_identity 4 self true Sample.springfield_after_unknown
  = Some (Batch.Stream [] (Some (KeyError_language_codes "XXX"))) /\
  Batch.build_training_data Sample.localized_name Sample.alpha3_code
    Sample.language_never_matters Sample.join_values Sample.no_dropout
    Sample.tsv_identity 4 self true
    [Store.PostalCode 1 "US" "65801" "ENG" "Zip" 40]
  = Some (Batch.Stream
            [ Batch.Tagged (Some "en") "us"
                "Springfield Township Greene County 65801 Missouri United States ";
              Batch.Tagged (Some "en") "us"
                "Springfield Greene County 65801 Missouri United States " ]
            None).
Proof. split; by_computation. Qed.

(** * Further properties *)

Section StripShape.
Import PyStr.
Variable chars : string.

Lemma lstrip_prefix s :
  exists pre, s = String.app pre (lstrip chars s) /\
              only_chars chars pre = true.
Proof.
  induction s as [|c s (pre & Hs & Hpre)].
  - exists EmptyString. done.
  - cbn [lstrip]. destruct (in_chars chars c) eqn:Hc.
    + exists (String c pre). split.
      * change (String c s = String c (String.app pre (lstrip chars s))).
        by rewrite <- Hs.
      * unfold only_chars in *. cbn [list_ascii_of_string forallb].
        by rewrite Hc, Hpre.
    + exists EmptyString. done.
Qed.

Lemma rstrip_suffix s :
  exists post, s = String.app (rstrip chars s) post /\
               only_chars chars post = true.
Proof.
  induction s as [|c s (post & Hs & Hpost)].
  - exists EmptyString. done.
  - cbn [rstrip]. destruct (rstrip chars s) as [|d r] eqn:Hr.
    + destruct (in_chars chars c) eqn:Hc.
      * exists (String c post). split.
        -- change (String.app EmptyString post) with post in Hs.
           by rewrite <- Hs.
        -- unfold only_chars in *. cbn [list_ascii_of_string forallb].
           by rewrite Hc, Hpost.
      * exists post. split; [|done].
        change (String c s = String c (String.app EmptyString post)).
        by rewrite <- Hs.
    + exists post. split; [|done].
      change (String c s = String c (String.app (String d r) post)).
      by rewrite <- Hs.
Qed.
End StripShape.

(** X1.  [cleanup_name] removes nothing but spaces, commas and hyphens,
    and only from the two ends: the name is a run of such characters,
    then the cleaned name, then another such run.  A name is returned
    unchanged exactly when it is clean. *)
Theorem cleanup_name_trims_ends :
  forall name : string,
    (exists pre post,
       name = String.app pre (String.app (cleanup_name name) post) /\
       only_chars " ,-" pre = true /\ only_chars " ,-" post = true) /\
    (cleanup_name name = name <-> clean name).
Proof.
  intros name. split.
  - destruct (lstrip_prefix " ,-" name) as (pre & Hpre & Hp).
    destruct (rstrip_suffix " ,-" (PyStr.lstrip " ,-" name))
      as (post & Hpost & Hq).
    exists pre, post. split_and!; [|done..].
    unfold cleanup_name, PyStr.strip. by rewrite <- Hpost.
  - split.
    + intros <-. apply cleanup_name_clean.
    + intros [Hb He]. unfold cleanup_name, PyStr.strip.
      rewrite (lstrip_fixed _ _ Hb). by apply rstrip_fixed.
Qed.

Section ChainFacts.
Import Store Walker.
Variable places : gmap Z place.
Variable original : Z.

Lemma walk_parent_chain fuel place_id all_places :
  walk fuel places original place_id = Some (inr all_places) ->
  parent_chain places original place_id all_places.
Proof.
  revert place_id all_places.
  induction fuel as [|fuel IH]; intros place_id all_places; cbn [walk].
  - case_bool_decide as Hc; [done|]. intros [= <-]. cbn.
    destruct (decide (place_id = 1)); [by left|].
    destruct (decide (place_id = original)); [by right|].
    destruct Hc; done.
  - case_bool_decide as Hc.
    + destruct Hc as [H1 Ho].
      destruct (places !! place_id) as [place|] eqn:Hp; [|done].
      destruct (walk fuel places original (place_parent_id place))
        as [[e|rest]|] eqn:Hw; [done| |done].
      intros [= <-]. cbn [parent_chain fst snd].
      split_and!; try done. by apply IH.
    + intros [= <-]. cbn.
      destruct (decide (place_id = 1)); [by left|].
      destruct (decide (place_id = original)); [by right|].
      destruct Hc; done.
Qed.

Lemma parent_chain_walk all_places : forall place_id,
  parent_chain places original place_id all_places ->
  walk (length all_places) places original place_id
  = Some (inr all_places).
Proof.
  induction all_places as [|[id p] rest IH]; intros place_id; cbn.
  - intros Hs. rewrite bool_decide_eq_false_2; [done|].
    intros [? ?]. destruct Hs; done.
  - intros (-> & H1 & Ho & Hp & Hrest).
    rewrite bool_decide_eq_true_2 by done.
    rewrite Hp. cbn in Hrest. by rewrite (IH _ Hrest).
Qed.

Lemma walk_error fuel place_id e :
  walk fuel places original place_id = Some (inl e) ->
  exists missing, e = KeyError_places missing /\ places !! missing = None.
Proof.
  revert place_id.
  induction fuel as [|fuel IH]; intros place_id; cbn [walk].
  - by case_bool_decide.
  - case_bool_decide as Hc; [|done].
    destruct (places !! place_id) as [place|] eqn:Hp.
    + destruct (walk fuel places original (place_parent_id place))
        as [[e'|rest]|] eqn:Hw; [|done..].
      intros [= <-]. by eapply IH.
    + intros [= <-]. eauto.
Qed.
End ChainFacts.

(** X2.  [get_place_hierarchy] returns a list exactly when that list is
    the leaf followed by the chain of its parent links up to the first
    parent id that is 1 or the leaf itself: every entry is the place the
    store holds under its id, each entry is the parent of the one
    before, and no entry but the first has the id 1 or the leaf's id. *)
Theorem get_place_hierarchy_is_parent_chain :
  forall (places : gmap Z Store.place) (leaf : Z)
         (all_places : list (Z * Store.place)),
    (exists fuel,
       Walker.get_place_hierarchy fuel places leaf
       = Some (inr all_places)) <->
    (exists place rest,
       all_places = (leaf, place) :: rest /\
       places !! leaf = Some place /\
       parent_chain places leaf (Store.place_parent_id place) rest).
Proof.
  intros places leaf all_places. unfold Walker.get_place_hierarchy. split.
  - intros [fuel Hr].
    destruct (places !! leaf) as [place|] eqn:Hleaf; [|done].
    destruct (Walker.walk fuel places leaf (Store.place_parent_id place))
      as [[e|rest]|] eqn:Hw; [done| |done].
    injection Hr as <-. exists place, rest. split_and!; try done.
    by eapply walk_parent_chain.
  - intros (place & rest & -> & Hleaf & Hchain).
    exists (length rest). rewrite Hleaf.
    by rewrite (parent_chain_walk _ _ _ _ Hchain).
Qed.

Lemma get_place_hierarchy_inl (places : gmap Z Store.place) fuel leaf e :
  Walker.get_place_hierarchy fuel places leaf = Some (inl e) ->
  exists missing, e = KeyError_places missing /\ places !! missing = None.
Proof.
  unfold Walker.get_place_hierarchy.
  destruct (places !! leaf) as [place|] eqn:Hleaf.
  - destruct (Walker.walk fuel places leaf (Store.place_parent_id place))
      as [[e'|rest]|] eqn:Hw; [|done..].
    intros [= <-]. by eapply walk_error.
  - intros [= <-]. eauto.
Qed.

Lemma get_place_hierarchy_cons (places : gmap Z Store.place) fuel leaf h :
  Walker.get_place_hierarchy fuel places leaf = Some (inr h) ->
  exists place rest, h = (leaf, place) :: rest.
Proof.
  unfold Walker.get_place_hierarchy.
  destruct (places !! leaf) as [place|]; [|done].
  destruct (Walker.walk fuel places leaf (Store.place_parent_id place))
    as [[e|rest]|]; [done| |done].
  intros [= <-]. eauto.
Qed.

(** X3.  When [get_place_hierarchy] raises, the exception is the
    KeyError of a place id that the store does not hold; for a leaf the
    store does not hold it is raised at once, whatever the parent
    links. *)
Theorem get_place_hierarchy_key_error :
  forall (places : gmap Z Store.place) (leaf : Z),
    (forall fuel e,
       Walker.get_place_hierarchy fuel places leaf = Some (inl e) ->
       exists place_id,
         e = KeyError_places place_id /\ places !! place_id = None) /\
    (places !! leaf = None ->
     forall fuel,
       Walker.get_place_hierarchy fuel places leaf
       = Some (inl (KeyError_places leaf))).
Proof.
  intros places leaf. split.
  - intros fuel e. apply get_place_hierarchy_inl.
  - intros Hleaf fuel. unfold Walker.get_place_hierarchy. by rewrite Hleaf.
Qed.

Section IndexFacts.
Import Store Indexer.

Variable replace_prefixes replace_suffixes : string -> string -> string.
Variable equivalent : string -> string -> option string -> bool.

Lemma equivalence_arguments_inl row e :
  equivalence_arguments replace_prefixes replace_suffixes row = inl e <->
  language_codes !! vr_language row = None /\
  e = KeyError_language_codes (vr_language row).
Proof.
  unfold equivalence_arguments, subscript.
  destruct (language_codes !! vr_language row) as [l|]; cbn.
  - split; [|by intros [? _]]. by destruct (negb _).
  - split; [by intros [= <-]|by intros [_ ->]].
Qed.

Lemma second_loop_unfold aliases row rows :
  second_loop replace_prefixes replace_suffixes equivalent aliases
    (row :: rows)
  = match second_loop_body replace_prefixes replace_suffixes equivalent
            aliases row with
    | inl e => inl e
    | inr aliases' =>
        second_loop replace_prefixes replace_suffixes equivalent aliases'
          rows
    end.
Proof. done. Qed.

Lemma second_loop_body_inl aliases row e :
  second_loop_body replace_prefixes replace_suffixes equivalent aliases row
  = inl e <->
  language_codes !! vr_language row = None /\
  e = KeyError_language_codes (vr_language row).
Proof.
  rewrite <- equivalence_arguments_inl. unfold second_loop_body.
  destruct (equivalence_arguments _ _ row) as [e'|[[pn a] l]]; cbn.
  - split; by intros [= <-].
  - by destruct (equivalent pn a l).
Qed.

(** The second loop raises at the first row whose language is unknown. *)
Lemma second_loop_inl rows : forall aliases e,
  second_loop replace_prefixes replace_suffixes equivalent aliases rows
  = inl e <->
  exists before row after,
    rows = before ++ row :: after /\
    Forall (fun r => is_Some (language_codes !! vr_language r)) before /\
    language_codes !! vr_language row = None /\
    e = KeyError_language_codes (vr_language row).
Proof.
  induction rows as [|row rows IH]; intros aliases e.
  - split; [done|]. intros (before & r & after & Heq & _).
    by destruct before.
  - rewrite second_loop_unfold.
    destruct (second_loop_body _ _ _ aliases row) as [e'|aliases'] eqn:Hb.
    + apply second_loop_body_inl in Hb as [Hnone ->]. split.
      * intros [= <-]. exists [], row, rows. done.
      * intros (before & r & after & Heq & Hknown & Hr & ->).
        destruct before as [|b before]; simplify_eq/=; [done|].
        apply Forall_cons in Hknown as [[? Hk] _]. congruence.
    + assert (is_Some (language_codes !! vr_language row)) as Hsome.
      { destruct (language_codes !! vr_language row) eqn:Hl; [eauto|].
        assert (second_loop_body replace_prefixes replace_suffixes
                  equivalent aliases row
                = inl (KeyError_language_codes (vr_language row))) as Hc
          by (by apply second_loop_body_inl).
        congruence. }
      rewrite IH. split.
      * intros (before & r & after & -> & Hknown & Hr & ->).
        exists (row :: before), r, after. split_and!; try done.
        by constructor.
      * intros (before & r & after & Heq & Hknown & Hr & ->).
        destruct before as [|b before]; simplify_eq/=.
        -- destruct Hsome as [? ?]. congruence.
        -- apply Forall_cons in Hknown as [_ Hknown].
           exists before, r, after. done.
Qed.
End IndexFacts.

(** X4.  [self.places] holds, under each id, the last row of the places
    table with that id (and nothing under an id no row has): a later
    row replaces an earlier one. *)
Theorem places_lookup_last_row :
  forall (rows : list (Z * Store.place)) (id : Z),
    Store.load_places rows !! id
    = last (filter (fun row : Z * Store.place => row.1 = id) rows).*2.
Proof.
  intros rows id. unfold Store.load_places.
  assert (forall acc : gmap Z Store.place,
    foldl (fun m row => <[row.1 := row.2]> m) acc rows !! id
    = match last (filter (fun row : Z * Store.place => row.1 = id) rows).*2 with
      | Some p => Some p
      | None => acc !! id
      end) as Hacc.
  { induction rows as [|row rows IH]; intros acc; [done|].
    cbn [foldl]. rewrite IH, filter_cons.
    destruct (decide (row.1 = id)) as [Hid|Hid].
    - rewrite fmap_cons, last_cons.
      destruct (last _) as [p|]; [done|].
      rewrite Hid. apply lookup_insert_eq.
    - destruct (last _) as [p|]; [done|]. by rewrite lookup_insert_ne. }
  rewrite Hacc, lookup_empty. by destruct (last _).
Qed.

(** X5.  [__init__] raises exactly when the second query has a row whose
    GeoPlanet language code is not in [language_codes]; the exception is
    the KeyError of the language of the first such row.  By
    [second_query_spec] these rows are the Variant aliases tagged with
    the language of their place. *)
Theorem init_raises_on_unknown_language :
  forall (replace_prefixes replace_suffixes : string -> string -> string)
         (equivalent : string -> string -> option string -> bool)
         (db : Store.database) (e : error),
    Indexer.init replace_prefixes replace_suffixes equivalent db = inl e <->
    exists before row after,
      Indexer.second_query db = before ++ row :: after /\
      Forall (fun r => is_Some (language_codes !! Indexer.vr_language r))
             before /\
      language_codes !! Indexer.vr_language row = None /\
      e = KeyError_language_codes (Indexer.vr_language row).
Proof.
  intros rp rs eq db e.
  rewrite <- (second_loop_inl rp rs eq _ (Store.first_pass db) e).
  unfold Indexer.init.
  destruct (Indexer.second_loop rp rs eq (Store.first_pass db)
              (Indexer.second_query db)) as [e'|aliases];
    cbn [mbind raise_bind]; split; intros Habs;
    first [by injection Habs as -> | discriminate Habs].
Qed.

(** X6.  After [__init__], every alias [get_aliases] returns for an id is
    a row of the aliases table with that id, and the id is the id of a
    place in [self.places]; so an id without alias rows, or without a
    place, gets the empty list. *)
Theorem get_aliases_from_table :
  forall (replace_prefixes replace_suffixes : string -> string -> string)
         (equivalent : string -> string -> option string -> bool)
         (db : Store.database) (self : Indexer.formatter) (id : Z),
    Indexer.init replace_prefixes replace_suffixes equivalent db = inr self ->
    Indexer.places self = Store.load_places (Store.places_table db) /\
    (forall a, a ∈ Indexer.get_aliases self id ->
       (id, a) ∈ Store.aliases_table db /\
       is_Some (Indexer.places self !! id)) /\
    ((forall a, (id, a) ∉ Store.aliases_table db) \/
     Indexer.places self !! id = None ->
     Indexer.get_aliases self id = []).
Proof.
  intros rp rs eq db self id Hinit. unfold Indexer.init in Hinit.
  destruct (Indexer.second_loop rp rs eq (Store.first_pass db)
              (Indexer.second_query db)) as [e|aliases'] eqn:Hloop;
    [done|].
  injection Hinit as <-. cbn [Indexer.places].
  assert (forall a, a ∈ Indexer.get_aliases (Indexer.Formatter
            (Store.load_places (Store.places_table db)) aliases') id ->
          (id, a) ∈ Store.aliases_table db /\
          is_Some (Store.load_places (Store.places_table db) !! id))
    as Hsound.
  { intros a. unfold Indexer.get_aliases. cbn [Indexer.aliases].
    rewrite (second_loop_lookup _ _ _ _ _ _ id Hloop).
    intros [Ha|Ha]%elem_of_app.
    - apply first_pass_elem_of in Ha as (? & _ & ?). done.
    - apply list_elem_of_fmap in Ha as (row & -> & Hrow).
      apply list_elem_of_filter in Hrow as [[Hid _] Hrow].
      apply second_query_spec in Hrow
        as (id' & a0 & p & Ha0 & Hp & Hv & Hl & ->).
      cbn in Hid. subst id'. split.
      + destruct a0 as [n t l]. cbn in *. subst t l. exact Ha0.
      + apply load_places_is_Some. eauto. }
  split; [done|]. split; [exact Hsound|].
  intros Hno.
  destruct (Indexer.get_aliases _ id) as [|a l] eqn:Hl; [done|].
  destruct (Hsound a) as [Hin Hsome]; [left|].
  destruct Hno as [Hno|Hno]; [by destruct (Hno a)|].
  rewrite Hno in Hsome. by destruct Hsome.
Qed.

Lemma get_aliases_from_table_witness :
  let self := Sample.formatter_of Sample.names in
  Sample.run_init Sample.names = inr self /\
  (forall a, a ∈ Indexer.get_aliases self 5 ->
     (5, a) ∈ Store.aliases_table Sample.names /\
     is_Some (Indexer.places self !! 5)) /\
  Indexer.get_aliases self 6 = [].
Proof.
  intros self.
  assert (Sample.run_init Sample.names = inr self) as Hinit
    by by_computation.
  split; [exact Hinit|]. split.
  - exact (proj1 (proj2 (get_aliases_from_table _ _ _ _ _ 5 Hinit))).
  - apply (proj2 (proj2 (get_aliases_from_table _ _ _ _ _ 6 Hinit))).
    right. by_computation.
Defined.

(** X7.  The first loop neither loses nor duplicates a row: the list it
    builds for an id holds each alias row of that id that passes the
    where clause of the first query and whose place is known, as many
    times as the row occurs in the table. *)
Theorem first_pass_permutation :
  forall (db : Store.database) (id : Z),
    default [] (Store.first_pass db !! id) ≡ₚ
    (filter (fun row : Z * Store.alias =>
               (row.1 = id /\
                is_Some (Store.load_places (Store.places_table db) !! row.1))
               /\ Store.first_query_where (Store.places_table db) row = true)
            (Store.aliases_table db)).*2.
Proof.
  intros db id. unfold Store.first_pass. rewrite first_loop_lookup.
  unfold Store.first_query. rewrite merge_sort_Permutation.
  by rewrite list_filter_filter.
Qed.

Section CollectFacts.
Import Store Indexer Walker Aggregator.

Lemma elem_of_default_set (o : option (gset string)) n :
  n ∈ default ∅ o <-> exists names, o = Some names /\ n ∈ names.
Proof.
  destruct o as [names|]; cbn.
  - split; [eauto|]. by intros (? & [= <-] & ?).
  - split; [|by intros (? & ? & _)].
    intros Hn. by apply not_elem_of_empty in Hn.
Qed.

Lemma lookup_default_bucket
    (o : option (gmap category (gset string))) c names :
  default ∅ o !! c = Some names <->
  exists bucket, o = Some bucket /\ bucket !! c = Some names.
Proof.
  destruct o as [bucket|]; cbn.
  - split; [eauto|]. by intros (? & [= <-] & ?).
  - rewrite lookup_empty. split; [done|]. by intros (? & ? & _).
Qed.

Lemma candidate_add language_places key place_type name key' c n :
  candidate (add_language_name language_places key place_type name)
            key' c n <->
  candidate language_places key' c n \/
  (key' = key /\ c = place_type /\ n = name).
Proof.
  unfold candidate, add_language_name. split.
  - intros (bucket & names & Hb & Hc & Hn).
    rewrite lookup_insert in Hb. case_decide as Hk; [|left; eauto].
    subst key'. injection Hb as <-.
    rewrite add_name_lookup in Hc. case_decide as Hpt.
    + subst c. injection Hc as <-.
      apply elem_of_union in Hn as [Hn|Hn%elem_of_singleton];
        [|by right].
      left. apply elem_of_default_set in Hn as (old & Hold & Hn).
      apply lookup_default_bucket in Hold as (b & Hlp & Hold). eauto.
    + left. apply lookup_default_bucket in Hc as (b & Hlp & Hc). eauto.
  - intros [(bucket & names & Hb & Hc & Hn)|(-> & -> & ->)].
    + destruct (decide (key = key')) as [->|Hk].
      * rewrite lookup_insert_eq, Hb. cbn [default from_option id].
        destruct (decide (place_type = c)) as [->|Hpt].
        -- eexists _, _. split; [done|]. rewrite add_name_lookup.
           rewrite decide_True by done. rewrite Hc. split; [done|].
           apply elem_of_union. by left.
        -- eexists _, names. split; [done|]. rewrite add_name_lookup.
           by rewrite decide_False.
      * rewrite lookup_insert_ne by done. eauto.
    + rewrite lookup_insert_eq. eexists _, _. split; [done|].
      rewrite add_name_lookup, decide_True by done. split; [done|].
      apply elem_of_union. right. by apply elem_of_singleton.
Qed.

Lemma alias_loop_candidates lang place_type aliases :
  forall language_places language_places',
    alias_loop lang place_type language_places aliases
      = inr language_places' ->
    forall key c n,
      candidate language_places' key c n <->
      candidate language_places key c n \/
      (c = place_type /\
       exists a, a ∈ aliases /\ alias_bucket_key lang a = inr key /\
                 n = cleanup_name (alias_name a)).
Proof.
  induction aliases as [|a aliases IH]; intros lp lp'.
  - intros [= <-] key c n. split; [auto|].
    intros [?|(_ & a & Ha & _)]; [done|]. by apply elem_of_nil in Ha.
  - rewrite alias_loop_unfold.
    destruct (alias_bucket_key lang a) as [e|k] eqn:Hk; [done|].
    intros Hloop key c n. rewrite (IH _ _ Hloop), candidate_add. split.
    + intros [[?|(-> & -> & ->)]|(-> & a' & Ha' & ? & ?)]; [by left|..].
      * right. split; [done|]. exists a. split; [left|done].
      * right. split; [done|]. exists a'. split; [by right|done].
    + intros [?|(-> & a' & [->|Ha']%elem_of_cons & Hk' & ->)].
      * by left; left.
      * left; right. split_and!; [congruence|done..].
      * right. split; [done|]. eauto.
Qed.

Lemma place_loop_body_inr self postcode_language st entry st' :
  place_loop_body self postcode_language st entry = inr st' ->
  exists place_type,
    place_types !! Store.place_type entry.2 = Some place_type /\
    st_country st' = PyStr.lower (place_country entry.2) /\
    alias_loop (place_language entry.2) place_type
      (add_language_name (st_language_places st) None place_type
         (cleanup_name (place_name entry.2)))
      (get_aliases self entry.1)
    = inr (st_language_places st').
Proof.
  unfold place_loop_body.
  destruct (if negb (st_have_default_language st)
               && negb (String.eqb (place_language entry.2)
                                   postcode_language)
            then _ else _) as [e|first]; [done|].
  cbn [mbind raise_bind]. unfold subscript at 1.
  destruct (place_types !! place_type entry.2) as [pt|] eqn:Hpt; [|done].
  cbn [mbind raise_bind].
  destruct (alias_loop _ pt _ _) as [e|lp'] eqn:Hloop; [done|].
  cbn [mbind raise_bind mret raise_ret].
  intros [= <-]. exists pt. done.
Qed.

Lemma place_loop_candidates self postcode_language place_hierarchy :
  forall st st',
    place_loop self postcode_language st place_hierarchy = inr st' ->
    forall key c n,
      candidate (st_language_places st') key c n <->
      candidate (st_language_places st) key c n \/
      exists entry, entry ∈ place_hierarchy /\ from_place self entry key c n.
Proof.
  induction place_hierarchy as [|entry rest IH]; intros st st'.
  - intros [= <-] key c n. split; [auto|].
    intros [?|(entry & He & _)]; [done|]. by apply elem_of_nil in He.
  - rewrite place_loop_unfold.
    destruct (place_loop_body self postcode_language st entry)
      as [e|st1] eqn:Hbody; [done|].
    apply place_loop_body_inr in Hbody as (pt & Hpt & _ & Haliases).
    intros Hloop key c n.
    rewrite (IH _ _ Hloop), (alias_loop_candidates _ _ _ _ _ Haliases).
    rewrite candidate_add. unfold from_place. split.
    + intros [[[?|(-> & -> & ->)]|(-> & a & Ha & Hk & ->)]
             |(entry' & He & Hfrom)].
      * by left.
      * right. exists entry. split; [left|]. split; [done|]. by left.
      * right. exists entry. split; [left|]. split; [done|]. right. eauto.
      * right. exists entry'. split; [by right|done].
    + intros [?|(entry' & [->|He]%elem_of_cons & Hfrom)].
      * by left; left; left.
      * left. destruct Hfrom as [Hc [[-> ->]|(a & Ha & Hk & ->)]].
        -- left; right. split_and!; [done| |done]. congruence.
        -- right. split; [congruence|]. eauto.
      * right. eauto.
Qed.

Lemma place_loop_country self postcode_language place_hierarchy :
  forall st st',
    place_loop self postcode_language st place_hierarchy = inr st' ->
    st_country st'
    = match last place_hierarchy with
      | Some entry => PyStr.lower (place_country entry.2)
      | None => st_country st
      end.
Proof.
  induction place_hierarchy as [|entry rest IH]; intros st st'.
  - by intros [= <-].
  - rewrite place_loop_unfold.
    destruct (place_loop_body self postcode_language st entry)
      as [e|st1] eqn:Hbody; [done|].
    apply place_loop_body_inr in Hbody as (pt & _ & Hcountry & _).
    intros Hloop. rewrite (IH _ _ Hloop), last_cons.
    by destruct (last rest).
Qed.

(** [collect] from the hierarchy it walked. *)
Lemma collect_inr_loop fuel self row agg :
  collect fuel self row = Some (inr agg) ->
  exists place_hierarchy st language,
    get_place_hierarchy fuel (places self) (pc_parent_id row)
      = Some (inr place_hierarchy) /\
    place_loop self (pc_language row)
      (LoopState (PyStr.lower (pc_country row)) language false
                 {[None := ∅]}) place_hierarchy = inr st /\
    agg_country agg = st_country st /\
    agg_language_places agg = st_language_places st.
Proof.
  unfold collect, subscript.
  destruct (language_codes !! pc_language row) as [language|] eqn:Hl;
    [|done].
  destruct (get_place_hierarchy fuel (places self) (pc_parent_id row))
    as [[e|place_hierarchy]|]; [done| |done].
  destruct (place_loop self (pc_language row) _ place_hierarchy)
    as [e|st] eqn:Hloop; [done|].
  cbn [mbind raise_bind mret raise_ret]. intros [= <-].
  exists place_hierarchy, st, language. done.
Qed.
End CollectFacts.

(** X8.  The buckets of a postal code hold exactly what its hierarchy
    contributes: a name is a candidate of a category in a bucket if and
    only if some entry of the walked hierarchy has a place type of that
    category and the name is either the entry's cleaned name (bucket
    [None]) or the cleaned name of one of its aliases, in the bucket
    chosen for that alias. *)
Theorem collected_candidates :
  forall (fuel : nat) (self : Indexer.formatter)
         (row : Store.postal_code_row) (agg : Aggregator.aggregate)
         (place_hierarchy : list (Z * Store.place)),
    Aggregator.collect fuel self row = Some (inr agg) ->
    Walker.get_place_hierarchy fuel (Indexer.places self)
      (Store.pc_parent_id row) = Some (inr place_hierarchy) ->
    forall key c name,
      candidate (Aggregator.agg_language_places agg) key c name <->
      exists entry,
        entry ∈ place_hierarchy /\ from_place self entry key c name.
Proof.
  intros fuel self row agg h Hcollect Hwalk key c name.
  apply collect_inr_loop in Hcollect
    as (h' & st & language & Hwalk' & Hloop & _ & ->).
  assert (h' = h) as -> by congruence.
  rewrite (place_loop_candidates _ _ _ _ _ Hloop).
  cbn [Aggregator.st_language_places]. split; [|auto].
  intros [(bucket & names & Hb & Hc & _)|?]; [|done].
  apply lookup_singleton_Some in Hb as [_ <-].
  by rewrite lookup_empty in Hc.
Qed.

Lemma collected_candidates_witness :
  let db := Sample.springfield in
  candidate (Aggregator.agg_language_places (Sample.aggregate_of db))
            None CITY "Springfield Township".
Proof.
  intros db.
  apply (collected_candidates 4 (Sample.formatter_of db)
           (Sample.first_row db) (Sample.aggregate_of db)
           [ (40, Store.Place "US" "Springfield" "ENG" "Town" 30);
             (30, Store.Place "US" "Greene County" "ENG" "County" 20);
             (20, Store.Place "US" "Missouri" "ENG" "State" 10);
             (10, Store.Place "US" "United States" "ENG" "Country" 1) ]
           ltac:(by_computation) ltac:(by_computation)).
  exists (40, Store.Place "US" "Springfield" "ENG" "Town" 30).
  split; [left|]. split; [by_computation|]. right.
  exists (Store.Alias "Springfield Township" "V" (Some "ENG")).
  split_and!; [|by_computation..]. cbn [fst].
  assert (Indexer.get_aliases (Sample.formatter_of db) 40
          = [Store.Alias "Springfield Township" "V" (Some "ENG")]) as ->
    by by_computation.
  left.
Defined.

Section CollectErrors.
Import Store Indexer Walker Aggregator.

Lemma alias_bucket_key_inl lang a e :
  alias_bucket_key lang a = inl e ->
  exists code, e = KeyError_language_codes code /\
               language_codes !! code = None.
Proof.
  unfold alias_bucket_key.
  set (alias_lang := match alias_language a with
                     | Some l => if PyStr.truthy l then l else "UNK"
                     | None => "UNK"
                     end).
  destruct (String.eqb alias_lang lang && negb (String.eqb lang "UNK"));
    [done|].
  unfold subscript.
  destruct (language_codes !! alias_lang) as [v|] eqn:Hv; [done|].
  intros [= <-]. eauto.
Qed.

Lemma alias_loop_inl places lang place_type aliases :
  forall language_places e,
    alias_loop lang place_type language_places aliases = inl e ->
    missing_key places e.
Proof.
  induction aliases as [|a aliases IH]; intros lp e; [done|].
  rewrite alias_loop_unfold.
  destruct (alias_bucket_key lang a) as [e'|key] eqn:Hkey.
  - intros [= <-].
    apply alias_bucket_key_inl in Hkey as (code & -> & Hcode). exact Hcode.
  - apply IH.
Qed.

Lemma place_loop_body_inl self postcode_language st entry e :
  place_loop_body self postcode_language st entry = inl e ->
  missing_key (places self) e.
Proof.
  unfold place_loop_body.
  destruct (negb (st_have_default_language st)
            && negb (String.eqb (place_language entry.2)
                                postcode_language)).
  - unfold subscript.
    destruct (language_codes !! place_language entry.2) as [l|] eqn:Hl;
      cbn [mbind raise_bind mret raise_ret]; [|by intros [= <-]].
    destruct (place_types !! place_type entry.2) as [pt|] eqn:Hpt;
      cbn [mbind raise_bind]; [|by intros [= <-]].
    destruct (alias_loop _ pt _ _) as [e'|lp'] eqn:Hloop; [|done].
    intros [= <-]. by eapply alias_loop_inl.
  - cbn [mbind raise_bind mret raise_ret]. unfold subscript.
    destruct (place_types !! place_type entry.2) as [pt|] eqn:Hpt;
      cbn [mbind raise_bind]; [|by intros [= <-]].
    destruct (alias_loop _ pt _ _) as [e'|lp'] eqn:Hloop; [|done].
    intros [= <-]. by eapply alias_loop_inl.
Qed.

Lemma place_loop_inl self postcode_language place_hierarchy :
  forall st e,
    place_loop self postcode_language st place_hierarchy = inl e ->
    missing_key (places self) e.
Proof.
  induction place_hierarchy as [|entry rest IH]; intros st e; [done|].
  rewrite place_loop_unfold.
  destruct (place_loop_body self postcode_language st entry)
    as [e'|st1] eqn:Hbody.
  - intros [= <-]. by eapply place_loop_body_inl.
  - apply IH.
Qed.

Lemma collect_inl fuel self row e :
  collect fuel self row = Some (inl e) -> missing_key (places self) e.
Proof.
  unfold collect, subscript.
  destruct (language_codes !! pc_language row) as [language|] eqn:Hl;
    [|by intros [= <-]].
  destruct (get_place_hierarchy fuel (places self) (pc_parent_id row))
    as [[e'|place_hierarchy]|] eqn:Hwalk; [| |done].
  - intros [= <-].
    apply get_place_hierarchy_inl in Hwalk as (missing & -> & Hm). exact Hm.
  - destruct (place_loop self (pc_language row) _ place_hierarchy)
      as [e'|st] eqn:Hloop; [|done].
    cbn [mbind raise_bind]. intros [= <-]. by eapply place_loop_inl.
Qed.

End CollectErrors.

Section StockFacts.
Import Store Indexer Walker Aggregator Generator.

Lemma add_name_stocked (d : gmap category (gset string)) k name :
  (forall c names, d !! c = Some names -> exists n, n ∈ names) ->
  forall c names,
    add_name d k name !! c = Some names -> exists n, n ∈ names.
Proof.
  intros Hd c names. rewrite add_name_lookup.
  case_decide; [|by apply Hd].
  intros [= <-]. exists name. apply elem_of_union. right.
  by apply elem_of_singleton.
Qed.

Lemma well_stocked_add language_places key place_type name :
  well_stocked language_places ->
  well_stocked (add_language_name language_places key place_type name).
Proof.
  intros [Hnone Hsets]. unfold add_language_name. split.
  - rewrite lookup_insert. case_decide; eauto.
  - intros key' bucket c names. rewrite lookup_insert.
    case_decide; [|by apply Hsets].
    intros [= <-]. apply add_name_stocked.
    intros c' names' (b & Hb & Hc)%lookup_default_bucket. by eapply Hsets.
Qed.

Lemma alias_loop_well_stocked lang place_type aliases :
  forall language_places language_places',
    well_stocked language_places ->
    alias_loop lang place_type language_places aliases
      = inr language_places' ->
    well_stocked language_places'.
Proof.
  induction aliases as [|a aliases IH]; intros lp lp' Hlp.
  - by intros [= <-].
  - rewrite alias_loop_unfold.
    destruct (alias_bucket_key lang a) as [e|key]; [done|].
    apply IH. by apply well_stocked_add.
Qed.

Lemma place_loop_well_stocked self postcode_language place_hierarchy :
  forall st st',
    well_stocked (st_language_places st) ->
    place_loop self postcode_language st place_hierarchy = inr st' ->
    well_stocked (st_language_places st').
Proof.
  induction place_hierarchy as [|entry rest IH]; intros st st' Hst.
  - by intros [= <-].
  - rewrite place_loop_unfold.
    destruct (place_loop_body self postcode_language st entry)
      as [e|st1] eqn:Hbody; [done|].
    apply place_loop_body_inr in Hbody as (pt & _ & _ & Haliases).
    apply IH. eapply alias_loop_well_stocked; [|exact Haliases].
    by apply well_stocked_add.
Qed.

Lemma collect_well_stocked fuel self row agg :
  collect fuel self row = Some (inr agg) ->
  well_stocked (agg_language_places agg).
Proof.
  intros (h & st & language & _ & Hloop & _ & ->)%collect_inr_loop.
  eapply place_loop_well_stocked; [|exact Hloop].
  cbn [st_language_places]. split.
  - rewrite lookup_singleton_eq. eauto.
  - intros key bucket c names [_ <-]%lookup_singleton_Some.
    by rewrite lookup_empty.
Qed.

Lemma product_inhabited {A} (pools : list (list A)) :
  Forall (fun pool => exists x, x ∈ pool) pools ->
  exists t, t ∈ product pools.
Proof.
  induction 1 as [|pool pools [x Hx] _ [t Ht]]; cbn [product].
  - exists []. left.
  - exists (x :: t). apply list_elem_of_bind. exists x. split; [|done].
    apply list_elem_of_bind. exists t. split; [left|done].
Qed.

Variable localized_name : string -> option string -> option string.
Variable alpha3_code : string -> option string.
Variable template_language_matters : string -> option string -> bool.
Variable format_address :
  gmap category string -> string -> option string -> bool -> option string.
Variable dropout_components :
  gmap category string -> string -> gmap category string.

Lemma add_country_names_stocked country language
    (containing_places : gmap category (gset string)) :
  (forall c names, containing_places !! c = Some names ->
                   exists n, n ∈ names) ->
  forall c names,
    add_country_names localized_name alpha3_code country language
      containing_places !! c = Some names ->
    exists n, n ∈ names.
Proof.
  intros Hcp. unfold add_country_names.
  repeat case_match; repeat apply add_name_stocked; exact Hcp.
Qed.

Lemma bucket_variants_inhabited tag language country postal_code
    (containing_places : gmap category (gset string)) :
  (forall c names, containing_places !! c = Some names ->
                   exists n, n ∈ names) ->
  exists r,
    r ∈ bucket_variants template_language_matters format_address
          dropout_components tag language country postal_code
          containing_places /\
    r.1.1 = language.
Proof.
  intros Hcp. unfold bucket_variants.
  destruct (product_inhabited
              (elements <$> (map_to_list containing_places).*2))
    as [values Hvalues].
  { apply Forall_fmap, Forall_fmap, Forall_forall.
    intros [c names] Hin%elem_of_map_to_list. cbn.
    destruct (Hcp _ _ Hin) as [n Hn]. exists n. by apply elem_of_elements. }
  eexists. split.
  - apply list_elem_of_bind. exists values. split; [|exact Hvalues].
    unfold tuple_variants. left.
  - done.
Qed.

Lemma format_postal_code_inr fuel self tag row records :
  format_postal_code localized_name alpha3_code template_language_matters
    format_address dropout_components fuel self tag row
  = Some (inr records) ->
  exists agg,
    collect fuel self row = Some (inr agg) /\
    records = generate localized_name alpha3_code template_language_matters
                format_address dropout_components tag (pc_postal_code row)
                agg.
Proof.
  unfold format_postal_code.
  destruct (collect fuel self row) as [[e|agg]|]; [done| |done].
  intros [= <-]. eauto.
Qed.
End StockFacts.

(** X9.  An exception raised while a postal code is processed is a
    KeyError whose key is really absent: a place id that [self.places]
    does not hold, a language code that is not in [language_codes], or a
    place type that is not in [place_types]. *)
Theorem format_postal_code_key_error :
  forall (localized_name : string -> option string -> option string)
         (alpha3_code : string -> option string)
         (template_language_matters : string -> option string -> bool)
         (format_address : gmap category string -> string -> option string ->
                           bool -> option string)
         (dropout_components : gmap category string -> string ->
                               gmap category string)
         (fuel : nat) (self : Indexer.formatter) (tag_components : bool)
         (row : Store.postal_code_row) (e : error),
    Generator.format_postal_code localized_name alpha3_code
      template_language_matters format_address dropout_components
      fuel self tag_components row = Some (inl e) ->
    missing_key (Indexer.places self) e.
Proof.
  intros ln a3 tlm fa dc fuel self tag row e.
  unfold Generator.format_postal_code.
  destruct (Aggregator.collect fuel self row) as [[e'|agg]|] eqn:Hc;
    [|done..].
  intros [= <-]. by eapply collect_inl.
Qed.

Lemma format_postal_code_key_error_witness :
  let self :=
    Indexer.Formatter
      (Store.load_places [(80, Store.Place "US" "Pacific" "ENG" "Zone" 1)])
      ∅ in
  let row := Store.PostalCode 4 "US" "96799" "ENG" "Zip" 80 in
  Generator.format_postal_code Sample.localized_name Sample.alpha3_code
    Sample.language_never_matters Sample.join_values Sample.no_dropout
    1 self true row = Some (inl (KeyError_place_types "Zone")) /\
  missing_key (Indexer.places self) (KeyError_place_types "Zone").
Proof.
  intros self row.
  assert (Generator.format_postal_code Sample.localized_name
            Sample.alpha3_code Sample.language_never_matters
            Sample.join_values Sample.no_dropout 1 self true row
          = Some (inl (KeyError_place_types "Zone"))) as Hrow
    by by_computation.
  split; [exact Hrow|].
  exact (format_postal_code_key_error _ _ _ _ _ _ _ _ _ _ Hrow).
Defined.

(** X10.  Every variant a postal code yields carries the lowercased
    country of the last place of the walked hierarchy (the postal code's
    own country column is not used) and a language that is a value of
    [language_codes], never [None]. *)
Theorem record_country_and_language :
  forall (localized_name : string -> option string -> option string)
         (alpha3_code : string -> option string)
         (template_language_matters : string -> option string -> bool)
         (format_address : gmap category string -> string -> option string ->
                           bool -> option string)
         (dropout_components : gmap category string -> string ->
                               gmap category string)
         (fuel : nat) (self : Indexer.formatter) (tag_components : bool)
         (row : Store.postal_code_row) (records : list Generator.record)
         (place_hierarchy : list (Z * Store.place)),
    Generator.format_postal_code localized_name alpha3_code
      template_language_matters format_address dropout_components
      fuel self tag_components row = Some (inr records) ->
    Walker.get_place_hierarchy fuel (Indexer.places self)
      (Store.pc_parent_id row) = Some (inr place_hierarchy) ->
    forall r, r ∈ records ->
      (exists entry,
         last place_hierarchy = Some entry /\
         r.1.2 = PyStr.lower (Store.place_country entry.2)) /\
      (exists code l, language_codes !! code = Some l /\ r.1.1 = Some l).
Proof.
  intros ln a3 tlm fa dc fuel self tag row records h Hrow Hwalk r Hr.
  apply format_postal_code_inr in Hrow as (agg & Hcollect & ->).
  apply generate_languages in Hr as (key & bucket & Hb & Hlang & Hcountry).
  destruct (collect_inr _ _ _ _ Hcollect) as [Hwf Horig].
  apply collect_inr_loop in Hcollect
    as (h' & st & language & Hwalk' & Hloop & Hc & _).
  assert (h' = h) as -> by congruence.
  split.
  - destruct (get_place_hierarchy_cons _ _ _ _ Hwalk) as (p & rest & ->).
    rewrite Hcountry, Hc, (place_loop_country _ _ _ _ _ Hloop).
    destruct (last ((Store.pc_parent_id row, p) :: rest)) as [entry|] eqn:Hl.
    + eauto.
    + by apply last_None in Hl.
  - rewrite Hlang. destruct key as [l|]; cbn.
    + destruct (Hwf _ _ Hb) as (Hkey & _).
      destruct (Hkey l eq_refl) as [code Hcode]. eauto.
    + eauto.
Qed.

Lemma record_country_and_language_witness :
  let self := Sample.formatter_of Sample.paris in
  let row := Store.PostalCode 2 "FR" "75001" "ENG" "Zip" 60 in
  let records := [ (Some "en", "fr", Some "Paris 75001 France ") ] in
  let place_hierarchy :=
    [ (60, Store.Place "FR" "Paris" "FRE" "Town" 50);
      (50, Store.Place "FR" "France" "FRE" "Country" 1) ] in
  Generator.format_postal_code Sample.localized_name Sample.alpha3_code
    Sample.language_never_matters Sample.join_values Sample.no_dropout
    2 self true row = Some (inr records) /\
  Walker.get_place_hierarchy 2 (Indexer.places self) 60
    = Some (inr place_hierarchy) /\
  (exists entry,
     last place_hierarchy = Some entry /\
     "fr" = PyStr.lower (Store.place_country entry.2)) /\
  (exists code l, language_codes !! code = Some l /\ Some "en" = Some l).
Proof.
  intros self row records place_hierarchy.
  assert (Generator.format_postal_code Sample.localized_name
            Sample.alpha3_code Sample.language_never_matters
            Sample.join_values Sample.no_dropout 2 self true row
          = Some (inr records)) as Hrow by by_computation.
  assert (Walker.get_place_hierarchy 2 (Indexer.places self) 60
          = Some (inr place_hierarchy)) as Hwalk by by_computation.
  split; [exact Hrow|]. split; [exact Hwalk|].
  apply (record_country_and_language _ _ _ _ _ _ _ _ _ _ _ Hrow Hwalk
           (Some "en", "fr", Some "Paris 75001 France ")).
  left.
Defined.

(** X11.  A postal code that is processed without exception yields at
    least one variant, and one in the postal code's own language: the
    bucket [None] is always there and none of its candidate sets is
    empty. *)
Theorem postal_code_yields_a_variant :
  forall (localized_name : string -> option string -> option string)
         (alpha3_code : string -> option string)
         (template_language_matters : string -> option string -> bool)
         (format_address : gmap category string -> string -> option string ->
                           bool -> option string)
         (dropout_components : gmap category string -> string ->
                               gmap category string)
         (fuel : nat) (self : Indexer.formatter) (tag_components : bool)
         (row : Store.postal_code_row) (records : list Generator.record),
    Generator.format_postal_code localized_name alpha3_code
      template_language_matters format_address dropout_components
      fuel self tag_components row = Some (inr records) ->
    exists r,
      r ∈ records /\ r.1.1 = language_codes !! Store.pc_language row.
Proof.
  intros ln a3 tlm fa dc fuel self tag row records Hrow.
  apply format_postal_code_inr in Hrow as (agg & Hcollect & ->).
  destruct (collect_well_stocked _ _ _ _ Hcollect) as [[bucket Hb] Hsets].
  destruct (collect_inr _ _ _ _ Hcollect) as [_ Horig].
  destruct (bucket_variants_inhabited tlm fa dc tag
              (Generator.bucket_language
                 (Aggregator.agg_original_language agg) None)
              (Aggregator.agg_country agg) (Store.pc_postal_code row)
              (Generator.add_country_names ln a3
                 (Aggregator.agg_country agg)
                 (Generator.bucket_language
                    (Aggregator.agg_original_language agg) None) bucket))
    as (r & Hr & Hlang).
  { apply add_country_names_stocked. intros c names.
    exact (Hsets None bucket c names Hb). }
  exists r. split; [|by rewrite Hlang, Horig].
  unfold Generator.generate. apply list_elem_of_bind.
  exists (None, bucket). split; [exact Hr|].
  by apply elem_of_map_to_list.
Qed.

Lemma postal_code_yields_a_variant_witness :
  let self := Sample.formatter_of Sample.paris in
  let row := Store.PostalCode 2 "FR" "75001" "ENG" "Zip" 60 in
  let records := [ (Some "en", "fr", Some "Paris 75001 France ") ] in
  Generator.format_postal_code Sample.localized_name Sample.alpha3_code
    Sample.language_never_matters Sample.join_values Sample.no_dropout
    2 self true row = Some (inr records) /\
  exists r, r ∈ records /\ r.1.1 = language_codes !! "ENG".
Proof.
  intros self row records.
  assert (Generator.format_postal_code Sample.localized_name
            Sample.alpha3_code Sample.language_never_matters
            Sample.join_values Sample.no_dropout 2 self true row
          = Some (inr records)) as Hrow by by_computation.
  split; [exact Hrow|].
  exact (postal_code_yields_a_variant _ _ _ _ _ _ _ _ _ _ Hrow).
Defined.

Section VariantFacts.
Import Store Indexer Aggregator Generator Batch.

Lemma bind_length_one {A B} (f : A -> list B) (l : list A) :
  (forall x, length (f x) = 1%nat) -> length (l ≫= f) = length l.
Proof.
  intros Hf. induction l as [|x l IH]; [done|].
  rewrite bind_cons, length_app, IH, Hf. done.
Qed.

Variable tsv_string : string -> option string.

Lemma write_record_elem_of tag r w :
  w ∈ write_record tsv_string tag r ->
  exists formatted,
    r.2 = Some formatted /\ blank (Some formatted) = false /\
    tsv_string formatted = Some (row_text w) /\
    blank (Some (row_text w)) = false /\
    w = if tag then Tagged r.1.1 r.1.2 (row_text w)
        else Plain (row_text w).
Proof.
  destruct r as [[language country] formatted]. unfold write_record.
  destruct (blank formatted) eqn:Hb1; [by intros ?%elem_of_nil|].
  destruct formatted as [text|]; [|done]. cbn [mbind option_bind].
  destruct (blank (tsv_string text)) eqn:Hb2; [by intros ?%elem_of_nil|].
  destruct (tsv_string text) as [text'|] eqn:Htsv; [|done].
  intros ->%list_elem_of_singleton. exists text.
  destruct tag; cbn [row_text fst snd]; done.
Qed.
End VariantFacts.

(** X12.  The components of a full variant: for a bucket without
    Postcode entry and any product tuple, Postcode is the postal code,
    every category of the bucket is assigned one of its own candidates,
    and no other component is set. *)
Theorem full_variant_components :
  forall (postal_code : string)
         (containing_places : gmap category (gset string))
         (values : list string),
    containing_places !! POSTCODE = None ->
    values ∈ Generator.product
               (elements <$> (map_to_list containing_places).*2) ->
    let components :=
      Generator.make_components postal_code
        (map_to_list containing_places).*1 values in
    components !! POSTCODE = Some postal_code /\
    (forall c names,
       containing_places !! c = Some names ->
       exists v, components !! c = Some v /\ v ∈ names) /\
    (forall c,
       c <> POSTCODE -> containing_places !! c = None ->
       components !! c = None).
Proof.
  intros pc cp values Hpost Hvalues components.
  assert (forall c, cp !! c = None -> c ∉ (map_to_list cp).*1) as Hnotin.
  { intros c Hc ([k names] & Hk & Hin)%list_elem_of_fmap.
    apply elem_of_map_to_list in Hin. cbn in Hk. congruence. }
  unfold components, Generator.make_components. split_and!.
  - rewrite update_lookup_other by auto. apply lookup_singleton_eq.
  - intros c names Hc. apply update_lookup_chosen.
    + apply NoDup_fst_map_to_list.
    + by apply product_Forall2.
    + by apply elem_of_map_to_list.
  - intros c Hne Hc. rewrite update_lookup_other by auto.
    by apply lookup_singleton_ne.
Qed.

Lemma full_variant_components_witness :
  let bucket : gmap category (gset string) :=
    {[ CITY := {[ "Springfield"; "Springfield Township" ]};
       STATE := {[ "Missouri" ]} ]} in
  let values := [ "Springfield"; "Missouri" ] in
  bucket !! POSTCODE = None /\
  values ∈ Generator.product (elements <$> (map_to_list bucket).*2) /\
  Generator.make_components "65801" (map_to_list bucket).*1 values
    !! POSTCODE = Some "65801".
Proof.
  intros bucket values.
  assert (bucket !! POSTCODE = None) as Hpost by by_computation.
  assert (values ∈ Generator.product
                     (elements <$> (map_to_list bucket).*2)) as Hvalues.
  { apply (bool_decide_eq_true_1 (values ∈ _)). by_computation. }
  split; [exact Hpost|]. split; [exact Hvalues|].
  exact (proj1 (full_variant_components "65801" bucket values
                  Hpost Hvalues)).
Defined.

(** X13.  When the dropout selector, for this country, always returns
    components with the same keys or with at most one component, no
    dropout variant is emitted: the bucket yields exactly one variant
    per product tuple, n1*...*nk in all. *)
Theorem bucket_variants_without_dropout :
  forall (template_language_matters : string -> option string -> bool)
         (format_address : gmap category string -> string -> option string ->
                           bool -> option string)
         (dropout_components : gmap category string -> string ->
                               gmap category string)
         (tag_components : bool) (language : option string)
         (country postal_code : string)
         (containing_places : gmap category (gset string)),
    (forall components,
       dom (dropout_components components country) = dom components \/
       (size (dropout_components components country) <= 1)%nat) ->
    length (Generator.bucket_variants template_language_matters
              format_address dropout_components tag_components language
              country postal_code containing_places)
    = foldr Nat.mul 1%nat (size <$> (map_to_list containing_places).*2).
Proof.
  intros tlm fa dc tag language country pc cp Hinert.
  unfold Generator.bucket_variants. rewrite bind_length_one.
  - rewrite product_length. f_equal. by rewrite <- list_fmap_compose.
  - intros values. unfold Generator.tuple_variants.
    destruct (Hinert (Generator.make_components pc (map_to_list cp).*1
                        values)) as [Hdom|Hsize].
    + rewrite (bool_decide_eq_false_2 (dom _ <> _)) by (by intros []).
      by rewrite andb_false_r.
    + rewrite (bool_decide_eq_false_2 (_ < _)%nat) by lia. done.
Qed.

Lemma bucket_variants_without_dropout_witness :
  let bucket : gmap category (gset string) :=
    {[ CITY := {[ "Springfield"; "Springfield Township" ]};
       STATE := {[ "Missouri" ]} ]} in
  length (Generator.bucket_variants Sample.language_never_matters
            Sample.join_values Sample.no_dropout true (Some "en") "us"
            "65801" bucket)
  = foldr Nat.mul 1%nat (size <$> (map_to_list bucket).*2).
Proof.
  intros bucket.
  apply (bucket_variants_without_dropout Sample.language_never_matters
           Sample.join_values Sample.no_dropout true (Some "en") "us"
           "65801" bucket).
  intros components. left. reflexivity.
Defined.

(** ** Whitespace *)
Section WhitespaceFacts.

Lemma string_append_cons c s1 s2 :
  String.app (String c s1) s2 = String c (String.app s1 s2).
Proof. done. Qed.

Lemma string_append_nil_r s : String.app s EmptyString = s.
Proof.
  induction s as [|c s IH]; [done|]. by rewrite string_append_cons, IH.
Qed.

Lemma string_append_assoc s1 s2 s3 :
  String.app s1 (String.app s2 s3) = String.app (String.app s1 s2) s3.
Proof.
  induction s1 as [|c s1 IH]; [done|]. by rewrite !string_append_cons, IH.
Qed.

Lemma string_append_length s1 s2 :
  String.length (String.app s1 s2)
  = (String.length s1 + String.length s2)%nat.
Proof.
  induction s1 as [|c s1 IH]; [done|].
  rewrite string_append_cons. cbn. by rewrite IH.
Qed.

Lemma string_rev_app_append s1 : forall s2,
  String.rev_app s1 s2 = String.app (String.rev s1) s2.
Proof.
  unfold String.rev. induction s1 as [|c s1 IH]; intros s2; [done|].
  cbn [String.rev_app]. rewrite IH, (IH (String c EmptyString)).
  by rewrite <- string_append_assoc.
Qed.

Lemma string_rev_cons c s :
  String.rev (String c s) = String.app (String.rev s) (String c EmptyString).
Proof.
  unfold String.rev at 1. cbn [String.rev_app]. apply string_rev_app_append.
Qed.

Lemma string_rev_append s1 s2 :
  String.rev (String.app s1 s2) = String.app (String.rev s2) (String.rev s1).
Proof.
  induction s1 as [|c s1 IH].
  - change (String.app EmptyString s2) with s2.
    change (String.rev EmptyString) with EmptyString.
    by rewrite string_append_nil_r.
  - by rewrite string_append_cons, !string_rev_cons, IH, string_append_assoc.
Qed.

Lemma string_rev_involutive s : String.rev (String.rev s) = s.
Proof.
  induction s as [|c s IH]; [done|].
  by rewrite string_rev_cons, string_rev_append, IH.
Qed.

Lemma join_app parts1 parts2 :
  join (parts1 ++ parts2) = String.app (join parts1) (join parts2).
Proof.
  induction parts1 as [|q parts1 IH]; [done|].
  cbn [app join foldr]. fold (join (parts1 ++ parts2)) (join parts1).
  by rewrite IH, string_append_assoc.
Qed.

Lemma rev_join parts :
  String.rev (join parts) = join (reverse (String.rev <$> parts)).
Proof.
  induction parts as [|q parts IH]; [done|].
  cbn [join foldr]. fold (join parts).
  rewrite string_rev_append, IH, fmap_cons, reverse_cons, join_app.
  cbn [join foldr]. by rewrite string_append_nil_r.
Qed.

Lemma drop_prefix_spec pre : forall s rest,
  PyStr.drop_prefix pre s = Some rest <-> s = String.app pre rest.
Proof.
  induction pre as [|c pre IH]; intros s rest; cbn [PyStr.drop_prefix].
  - split; [by intros [= ->]|by intros ->].
  - destruct s as [|d s]; [done|].
    destruct (Ascii.eqb_spec c d) as [->|Hne].
    + rewrite IH. split; [by intros ->|]. by intros [= ->].
    + split; [done|]. intros [= -> _]. done.
Qed.

Lemma drop_first_Some seqs s rest :
  PyStr.drop_first seqs s = Some rest ->
  exists q, q ∈ seqs /\ s = String.app q rest.
Proof.
  unfold PyStr.drop_first.
  induction seqs as [|q seqs IH]; cbn [foldr]; [done|].
  destruct (PyStr.drop_prefix q s) as [rest'|] eqn:Hq.
  - intros [= ->]. apply drop_prefix_spec in Hq. exists q. split; [left|done].
  - intros (q' & Hin & Hs)%IH. exists q'. split; [by right|done].
Qed.

(** What [lstrip_seqs] removes is a run of the sequences. *)
Lemma lstrip_seqs_parts seqs turns : forall s,
  exists parts,
    Forall (fun part => part ∈ seqs) parts /\
    s = String.app (join parts) (PyStr.lstrip_seqs turns seqs s).
Proof.
  induction turns as [|turns IH]; intros s; cbn [PyStr.lstrip_seqs].
  - exists []. done.
  - destruct (PyStr.drop_first seqs s) as [rest|] eqn:Hd.
    + apply drop_first_Some in Hd as (q & Hq & ->).
      destruct (IH rest) as (parts & Hparts & Hrest).
      exists (q :: parts). split; [by constructor|].
      cbn [join foldr]. fold (join parts).
      by rewrite <- string_append_assoc, <- Hrest.
    + exists []. done.
Qed.

(** No whitespace character begins with the bytes of another one: the
    sequence found at the head of a string is the one that is there. *)
Lemma drop_first_whitespace q rest :
  q ∈ PyStr.whitespace ->
  PyStr.drop_first PyStr.whitespace (String.app q rest) = Some rest.
Proof.
  unfold PyStr.whitespace at 1.
  intros (codes & -> & Hcodes)%list_elem_of_fmap.
  repeat (apply elem_of_cons in Hcodes as [->|Hcodes]; [reflexivity|]).
  by apply elem_of_nil in Hcodes.
Qed.

Lemma whitespace_not_empty q :
  q ∈ PyStr.whitespace -> (1 <= String.length q)%nat.
Proof.
  unfold PyStr.whitespace.
  intros (codes & -> & Hcodes)%list_elem_of_fmap.
  repeat (apply elem_of_cons in Hcodes as [->|Hcodes]; [cbn; lia|]).
  by apply elem_of_nil in Hcodes.
Qed.

Lemma join_length parts :
  Forall (fun part => part ∈ PyStr.whitespace) parts ->
  (length parts <= String.length (join parts))%nat.
Proof.
  induction 1 as [|q parts Hq _ IH]; [done|].
  cbn [join foldr length]. fold (join parts).
  rewrite string_append_length. apply whitespace_not_empty in Hq. lia.
Qed.

Lemma lstrip_seqs_whitespace parts :
  Forall (fun part => part ∈ PyStr.whitespace) parts ->
  forall turns, (length parts <= turns)%nat ->
    PyStr.lstrip_seqs turns PyStr.whitespace (join parts) = EmptyString.
Proof.
  induction 1 as [|q parts Hq _ IH]; intros turns Hturns.
  - by destruct turns.
  - destruct turns as [|turns]; [cbn in Hturns; lia|].
    cbn [PyStr.lstrip_seqs join foldr]. fold (join parts).
    rewrite drop_first_whitespace by done.
    apply IH. cbn in Hturns. lia.
Qed.

(** The test of lines 263 and 267 is true exactly of the strings made of
    whitespace characters only. *)
Lemma blank_only_whitespace s :
  Batch.blank (Some s) = true <-> only_whitespace s.
Proof.
  unfold Batch.blank, PyStr.strip_whitespace, PyStr.strip_seqs. split.
  - intros [Hs|Hs]%orb_true_iff; apply negb_true_iff in Hs.
    + exists []. split; [done|]. by destruct s.
    + destruct (lstrip_seqs_parts PyStr.whitespace (String.length s) s)
        as (parts1 & Hparts1 & Hs1).
      set (l := PyStr.lstrip_seqs (String.length s) PyStr.whitespace s) in *.
      destruct (lstrip_seqs_parts (String.rev <$> PyStr.whitespace)
                  (String.length l) (String.rev l))
        as (parts2 & Hparts2 & Hs2).
      set (r := PyStr.lstrip_seqs (String.length l)
                  (String.rev <$> PyStr.whitespace) (String.rev l)) in *.
      assert (r = EmptyString) as Hr.
      { rewrite <- (string_rev_involutive r). by destruct (String.rev r). }
      rewrite Hr, string_append_nil_r in Hs2.
      assert (l = join (reverse (String.rev <$> parts2))) as Hl.
      { by rewrite <- rev_join, <- Hs2, string_rev_involutive. }
      exists (parts1 ++ reverse (String.rev <$> parts2)). split.
      * apply Forall_app. split; [done|].
        apply Forall_reverse, Forall_fmap.
        eapply Forall_impl; [exact Hparts2|].
        intros q (q' & -> & Hq')%list_elem_of_fmap. cbn.
        by rewrite string_rev_involutive.
      * by rewrite join_app, <- Hl.
  - intros (parts & Hparts & ->). apply orb_true_iff. right.
    rewrite lstrip_seqs_whitespace; [done..|]. by apply join_length.
Qed.
End WhitespaceFacts.

Section WrittenFacts.
Import Store Indexer Aggregator Generator Batch.
Variable tsv_string : string -> option string.

Lemma write_record_written tag language country formatted text :
  blank (Some formatted) = false ->
  tsv_string formatted = Some text ->
  blank (Some text) = false ->
  write_record tsv_string tag (language, country, Some formatted)
  = [if tag then Tagged language country text else Plain text].
Proof.
  intros Hb1 Htsv Hb2. unfold write_record. rewrite Hb1.
  cbn [mbind option_bind]. rewrite Htsv, Hb2. done.
Qed.
End WrittenFacts.

(** X14.  [build_training_data] writes exactly the variants that are not
    blank: a row is written if and only if its text is [tsv_string] of
    the formatted address of a yielded variant, neither that address nor
    the text is made of whitespace characters only (the empty string
    is), and the row is (language, country, text) in tagged mode and the
    text alone otherwise.  Whitespace is what [str.strip()] removes,
    U+001C, U+00A0 and U+3000 included.  The batch ends on an exception
    exactly when the generator does. *)
Theorem written_rows_not_blank :
  forall (localized_name : string -> option string -> option string)
         (alpha3_code : string -> option string)
         (template_language_matters : string -> option string -> bool)
         (format_address : gmap category string -> string -> option string ->
                           bool -> option string)
         (dropout_components : gmap category string -> string ->
                               gmap category string)
         (tsv_string : string -> option string)
         (fuel : nat) (self : Indexer.formatter) (tag_components : bool)
         (all_postal_codes : list Store.postal_code_row)
         (written : Batch.stream Batch.written_row),
    Batch.build_training_data localized_name alpha3_code
      template_language_matters format_address dropout_components tsv_string
      fuel self tag_components all_postal_codes = Some written ->
    exists s,
      Batch.format_postal_codes localized_name alpha3_code
        template_language_matters format_address dropout_components
        fuel self tag_components all_postal_codes = Some s /\
      Batch.raised written = Batch.raised s /\
      forall w,
        w ∈ Batch.yielded written <->
        exists language country formatted,
          (language, country, Some formatted) ∈ Batch.yielded s /\
          ~ only_whitespace formatted /\
          tsv_string formatted = Some (row_text w) /\
          ~ only_whitespace (row_text w) /\
          w = if tag_components
              then Batch.Tagged language country (row_text w)
              else Batch.Plain (row_text w).
Proof.
  intros ln a3 tlm fa dc tsv fuel self tag rows written.
  unfold Batch.build_training_data.
  destruct (Batch.format_postal_codes ln a3 tlm fa dc fuel self tag rows)
    as [s|]; [|done].
  intros [= <-]. exists s. split; [done|]. split; [done|].
  cbn [Batch.yielded]. intros w. rewrite list_elem_of_bind. split.
  - intros ([[language country] formatted] & Hw & Hr).
    apply write_record_elem_of in Hw
      as (text & Htext & Hb1 & Htsv & Hb2 & Hrow).
    cbn [fst snd] in *. subst formatted.
    exists language, country, text.
    rewrite <- !blank_only_whitespace, Hb1, Hb2. done.
  - intros (language & country & formatted & Hr & Hb1 & Htsv & Hb2 & Hw).
    exists (language, country, Some formatted). split; [|done].
    rewrite <- blank_only_whitespace in Hb1, Hb2.
    apply not_true_is_false in Hb1, Hb2.
    rewrite (write_record_written _ _ _ _ _ _ Hb1 Htsv Hb2), <- Hw.
    by apply list_elem_of_singleton.
Qed.

Lemma written_rows_not_blank_witness :
  let self := Sample.formatter_of Sample.springfield in
  let rows := [Store.PostalCode 1 "US" "65801" "ENG" "Zip" 40] in
  let written :=
    Batch.Stream
      [ Batch.Plain
          "Springfield Township Greene County 65801 Missouri United States ";
        Batch.Plain
          "Springfield Greene County 65801 Missouri United States " ]
      None in
  Batch.build_training_data Sample.localized_name Sample.alpha3_code
    Sample.language_never_matters Sample.join_values Sample.no_dropout
    Sample.tsv_identity 4 self false rows = Some written /\
  forall w, w ∈ Batch.yielded written -> ~ only_whitespace (row_text w).
Proof.
  intros self rows written.
  assert (Batch.build_training_data Sample.localized_name
            Sample.alpha3_code Sample.language_never_matters
            Sample.join_values Sample.no_dropout Sample.tsv_identity
            4 self false rows = Some written) as Hbuild by by_computation.
  split; [exact Hbuild|].
  destruct (written_rows_not_blank _ _ _ _ _ _ _ _ _ _ _ Hbuild)
    as (s & _ & _ & Hrows).
  intros w Hw.
  destruct (proj1 (Hrows w) Hw) as (? & ? & ? & _ & _ & _ & Hb & _).
  exact Hb.
Defined.

Section ComposeFacts.
Import Store Indexer Aggregator Generator Batch.
Variable localized_name : string -> option string -> option string.
Variable alpha3_code : string -> option string.
Variable template_language_matters : string -> option string -> bool.
Variable format_address :
  gmap category string -> string -> option string -> bool -> option string.
Variable dropout_components :
  gmap category string -> string -> gmap category string.

(** Rows after a row that raised are not reached. *)
Lemma format_postal_codes_raised fuel self tag rows1 rows2 s e :
  format_postal_codes localized_name alpha3_code template_language_matters
    format_address dropout_components fuel self tag rows1 = Some s ->
  raised s = Some e ->
  format_postal_codes localized_name alpha3_code template_language_matters
    format_address dropout_components fuel self tag (rows1 ++ rows2)
  = Some s.
Proof.
  revert s. induction rows1 as [|row rows1 IH]; intros s.
  - by intros [= <-].
  - cbn [app format_postal_codes].
    destruct (format_postal_code _ _ _ _ _ fuel self tag row)
      as [[e'|records]|]; [done| |done].
    destruct (format_postal_codes _ _ _ _ _ fuel self tag rows1)
      as [s1|] eqn:H1; [|done].
    intros [= <-] Hraised. cbn [raised] in Hraised.
    by rewrite (IH s1 eq_refl Hraised).
Qed.
End ComposeFacts.

(** X15.  Batches compose.  If the rows [before] leave the written rows
    [w1]: when [w1] ended on an exception, appending more postal codes
    changes nothing; otherwise the batch [before ++ after] writes the
    rows of [before] followed by the rows of [after] and ends as the
    batch [after] ends. *)
Theorem build_training_data_app :
  forall (localized_name : string -> option string -> option string)
         (alpha3_code : string -> option string)
         (template_language_matters : string -> option string -> bool)
         (format_address : gmap category string -> string -> option string ->
                           bool -> option string)
         (dropout_components : gmap category string -> string ->
                               gmap category string)
         (tsv_string : string -> option string)
         (fuel : nat) (self : Indexer.formatter) (tag_components : bool)
         (before after : list Store.postal_code_row)
         (w1 : Batch.stream Batch.written_row),
    Batch.build_training_data localized_name alpha3_code
      template_language_matters format_address dropout_components tsv_string
      fuel self tag_components before = Some w1 ->
    Batch.build_training_data localized_name alpha3_code
      template_language_matters format_address dropout_components tsv_string
      fuel self tag_components (before ++ after)
    = match Batch.raised w1 with
      | Some _ => Some w1
      | None =>
          match Batch.build_training_data localized_name alpha3_code
                  template_language_matters format_address
                  dropout_components tsv_string fuel self tag_components
                  after with
          | Some w2 =>
              Some (Batch.Stream (Batch.yielded w1 ++ Batch.yielded w2)
                                 (Batch.raised w2))
          | None => None
          end
      end.
Proof.
  intros ln a3 tlm fa dc tsv fuel self tag before after w1.
  unfold Batch.build_training_data.
  destruct (Batch.format_postal_codes ln a3 tlm fa dc fuel self tag before)
    as [s1|] eqn:H1; [|done].
  intros [= <-]. cbn [Batch.raised Batch.yielded].
  destruct (Batch.raised s1) as [e|] eqn:Hraised.
  - rewrite (format_postal_codes_raised _ _ _ _ _ _ _ _ _ after _ _
               H1 Hraised).
    by rewrite Hraised.
  - rewrite (format_postal_codes_app _ _ _ _ _ _ _ _ _ after _ H1 Hraised).
    destruct (Batch.format_postal_codes ln a3 tlm fa dc fuel self tag after)
      as [s2|]; [|done].
    cbn [Batch.raised Batch.yielded]. by rewrite bind_app.
Qed.

Lemma build_training_data_app_witness :
  let self := Sample.formatter_of Sample.springfield in
  let good := Store.PostalCode 1 "US" "65801" "ENG" "Zip" 40 in
  let rows :=
    [ Batch.Plain
        "Springfield Township Greene County 65801 Missouri United States ";
      Batch.Plain
        "Springfield Greene County 65801 Missouri United States " ] in
  Batch.build_training_data Sample.localized_name Sample.alpha3_code
    Sample.language_never_matters Sample.join_values Sample.no_dropout
    Sample.tsv_identity 4 self false [good]
  = Some (Batch.Stream rows None) /\
  Batch.build_training_data Sample.localized_name Sample.alpha3_code
    Sample.language_never_matters Sample.join_values Sample.no_dropout
    Sample.tsv_identity 4 self false ([good] ++ [good])
  = Some (Batch.Stream (rows ++ rows) None).
Proof.
  intros self good rows.
  assert (Batch.build_training_data Sample.localized_name
            Sample.alpha3_code Sample.language_never_matters
            Sample.join_values Sample.no_dropout Sample.tsv_identity
            4 self false [good] = Some (Batch.Stream rows None)) as Hgood
    by by_computation.
  split; [exact Hgood|].
  rewrite (build_training_data_app _ _ _ _ _ _ _ _ _ _ [good] _ Hgood).
  cbn [Batch.raised]. rewrite Hgood. done.
Defined.

(** X16.  The bucket of an alias (lines 203-208).  An alias goes to the
    bucket [None] exactly when its language is the language of the
    place and that language is not 'UNK'; an alias whose language is
    missing or empty goes to the bucket "unk", whatever the language of
    the place. *)
Theorem alias_bucket_choice :
  forall (lang : string) (a : Store.alias),
    (Aggregator.alias_bucket_key lang a = inr None <->
     Store.alias_language a = Some lang /\ lang <> "UNK" /\
     lang <> EmptyString) /\
    (Store.alias_language a = None \/
     Store.alias_language a = Some EmptyString ->
     Aggregator.alias_bucket_key lang a = inr (Some "unk")).
Proof.
  intros lang a. unfold Aggregator.alias_bucket_key.
  set (alias_lang := match Store.alias_language a with
                     | Some l => if PyStr.truthy l then l else "UNK"
                     | None => "UNK"
                     end).
  assert (Store.alias_language a = None \/
          Store.alias_language a = Some EmptyString ->
          alias_lang = "UNK") as Hmissing.
  { unfold alias_lang. by intros [->| ->]. }
  assert (forall l, Store.alias_language a = Some l -> l <> EmptyString ->
                    alias_lang = l) as Hpresent.
  { unfold alias_lang. intros l -> Hl. by destruct l. }
  destruct (String.eqb alias_lang lang && negb (String.eqb lang "UNK"))
    eqn:Hc.
  - apply andb_true_iff in Hc as [Hl Hu].
    apply String.eqb_eq in Hl. apply negb_true_iff, String.eqb_neq in Hu.
    split.
    + split; [intros _|done].
      destruct (Store.alias_language a) as [[|c l]|] eqn:Ha.
      * rewrite Hmissing in Hl by auto. congruence.
      * rewrite (Hpresent _ eq_refl) in Hl by done. by subst lang.
      * rewrite Hmissing in Hl by auto. congruence.
    + intros Hm. rewrite (Hmissing Hm) in Hl. congruence.
  - split.
    + split.
      * unfold subscript.
        destruct (language_codes !! alias_lang); discriminate.
      * intros (Ha & Hu & He). rewrite (Hpresent _ Ha He) in Hc.
        rewrite String.eqb_refl in Hc. cbn in Hc.
        apply negb_false_iff, String.eqb_eq in Hc. done.
    + intros Hm. rewrite (Hmissing Hm). by_computation.
Qed.
